(** * Guitar-Hero-FRP: the game core of [src/main.ts]

    A shallow embedding of the pure part of the program: the [tick]
    function, the reducer passed to [scan], the score parser, [findLast]
    and the [RNG] class, followed by the properties of the specification
    that concern them. *)

From Stdlib Require Import ZArith QArith Qround Qabs List String Ascii Bool.
From Stdlib Require Import Sorted Lia Lqa.
Import ListNotations.

Close Scope Q_scope.

(** ** Numbers

    Every numeric value of the program has the JavaScript type [number].
    The finite values are modelled as exact rationals, so arithmetic is
    exact (no binary rounding, no overflow); [NaN], which [Number] and
    arithmetic on it produce for text that is not numeric, is kept as a
    value of its own because every comparison with it is false. *)

Module JS.

Local Open Scope Q_scope.

Inductive number : Type :=
| Num (q : Q)
| NaN.

Definition lift2 (f : Q -> Q -> Q) (x y : number) : number :=
  match x, y with
  | Num p, Num q => Num (f p q)
  | _, _ => NaN
  end.

Definition add : number -> number -> number := lift2 Qplus.
Definition sub : number -> number -> number := lift2 Qminus.
Definition mul : number -> number -> number := lift2 Qmult.

(** The program divides by the non-zero constants 1000, 100 and [m - 1]
    only; a zero divisor (an infinity or NaN in JavaScript) is mapped to
    [NaN]. *)
Definition div (x y : number) : number :=
  match x, y with
  | Num p, Num q => if Qeq_bool q 0 then NaN else Num (p / q)
  | _, _ => NaN
  end.

(** [x % y]: the remainder has the sign of the dividend, the quotient is
    truncated towards zero. *)
Definition Qtrunc (q : Q) : Z := Z.quot (Qnum q) (Zpos (Qden q)).

Definition rem (x y : number) : number :=
  match x, y with
  | Num p, Num q =>
      if Qeq_bool q 0 then NaN else Num (p - q * inject_Z (Qtrunc (p / q)))
  | _, _ => NaN
  end.

(** Unary minus *)
Definition neg (x : number) : number :=
  match x with
  | Num p => Num (- p)
  | NaN => NaN
  end.

(** [Math.abs] *)
Definition abs (x : number) : number :=
  match x with
  | Num p => Num (Qabs p)
  | NaN => NaN
  end.

(** [Math.round]: the nearest integer, halves towards plus infinity. *)
Definition round (x : number) : number :=
  match x with
  | Num p => Num (inject_Z (Qfloor (p + (1 # 2))))
  | NaN => NaN
  end.

Definition Qltb (p q : Q) : bool :=
  (Qnum p * Zpos (Qden q) <? Qnum q * Zpos (Qden p))%Z.

(** [x < y], [x > y], [x >= y], [x <= y] and [x === y] on numbers *)
Definition ltb (x y : number) : bool :=
  match x, y with
  | Num p, Num q => Qltb p q
  | _, _ => false
  end.

Definition gtb (x y : number) : bool := ltb y x.

Definition leb (x y : number) : bool :=
  match x, y with
  | Num p, Num q => Qle_bool p q
  | _, _ => false
  end.

Definition geb (x y : number) : bool := leb y x.

Definition eqb (x y : number) : bool :=
  match x, y with
  | Num p, Num q => Qeq_bool p q
  | _, _ => false
  end.

(** A number that is not [NaN]. *)
Definition is_num (x : number) : Prop :=
  match x with
  | Num _ => True
  | NaN => False
  end.

(** Equality of values: [NaN] differs from everything, itself included. *)
Definition eqv (x y : number) : Prop :=
  match x, y with
  | Num p, Num q => p == q
  | _, _ => False
  end.

End JS.

Import JS.

Declare Scope js_scope.
Delimit Scope js_scope with js.
Bind Scope js_scope with number.
Infix "+" := JS.add : js_scope.
Infix "-" := JS.sub : js_scope.
Infix "*" := JS.mul : js_scope.
Infix "/" := JS.div : js_scope.
Infix "%%" := JS.rem (at level 40, left associativity) : js_scope.
Infix "<?" := JS.ltb : js_scope.
Infix ">?" := JS.gtb : js_scope.
Infix "<=?" := JS.leb : js_scope.
Infix ">=?" := JS.geb : js_scope.
Infix "===" := JS.eqb (at level 70, no associativity) : js_scope.

Coercion Num : Q >-> number.

Local Open Scope string_scope.
Local Open Scope js_scope.

(** ** Constants *)

Module Viewport.
Definition CANVAS_WIDTH : number := 200%Q.
Definition CANVAS_HEIGHT : number := 400%Q.
Definition LAST_POSITION : number := 350%Q.
End Viewport.

Module Constants.
Definition TICK_RATE_MS : number := 10%Q.
End Constants.

Module Note.
Definition RADIUS : number := 0.07%Q * Viewport.CANVAS_WIDTH.
Definition TAIL_WIDTH : number := 10%Q.
End Note.

Module Time.
Definition OFFSET : number := 3.5%Q.
Definition FORGIVING_MARGIN : number := 0.30%Q.
End Time.

(** ** Types *)

(** [NoteData].  [played_at] is [number | null].  [instrument] is the
    second column of a score row and is [undefined] ([None]) when the row
    has a single column.  Objects have an identity in JavaScript: [oid]
    stands for it.  The parser numbers the objects it creates by row, a
    copy made with the spread syntax keeps the number of its original, and
    the user notes are never copied, so that two circles hold the same
    user note object exactly when the [oid]s of their notes are equal. *)
Record NoteData : Type := mkNoteData {
  user_played : bool;
  instrument : option string;
  velocity : number;
  pitch : number;
  start : number;
  end_ : number;
  played_at : option number;
  oid : nat
}.

Record Body : Type := mkBody {
  r : number;
  cx : string;
  cy : number;
  style : string;
  class : string;
  rendered : bool;
  note : NoteData;
  played : bool
}.

Record State : Type := mkState {
  gameEnd : bool;
  circles : list Body;
  notes : list NoteData;
  autoNotes : list NoteData;
  userNotes : list NoteData;
  noteIndex : number;
  time : number;
  lastNote : NoteData;
  score : number;
  paused : bool
}.

(** ** [tick] *)

Definition updatedTime (s : State) : number :=
  time s + Constants.TICK_RATE_MS / 1000%Q.

Definition roundedTime (s : State) : number :=
  JS.round (updatedTime s * 1000%Q) / 1000%Q.

Definition stampNote (s : State) (n : NoteData) : NoteData :=
  match played_at n with
  | None =>
      if (start n <? roundedTime s) && (start n >=? time s)
      then mkNoteData (user_played n) (instrument n) (velocity n) (pitch n)
                      (start n) (end_ n) (Some (time s)) (oid n)
      else n
  | Some _ => n
  end.

Definition updatedNotes (s : State) : list NoteData :=
  map (stampNote s) (filter (fun n => end_ n >? time s) (autoNotes s)).

Definition newNotes (s : State) : list NoteData :=
  filter (fun n => (start n <? roundedTime s + Time.OFFSET)
                   && (start n >=? time s + Time.OFFSET))
         (userNotes s).

Definition circleX (pitch : number) : string * string :=
  let cx := pitch %% 4%Q in
  if cx === 0%Q then ("20%", "fill: green")
  else if cx === 1%Q then ("40%", "fill: red")
  else if cx === 2%Q then ("60%", "fill: blue")
  else if cx === 3%Q then ("80%", "fill: yellow")
  else ("20%", "fill: green").

Definition newCircle (n : NoteData) : Body :=
  mkBody Note.RADIUS (fst (circleX (pitch n))) 0%Q (snd (circleX (pitch n)))
         "shadow" true n false.

Definition newCircles (s : State) : list Body := map newCircle (newNotes s).

Definition moveCircle (c : Body) : Body :=
  if cy c >=? Viewport.LAST_POSITION
  then mkBody (r c) (cx c) (cy c) (style c) (class c) false (note c) (played c)
  else mkBody (r c) (cx c) (cy c + 1%Q) (style c) (class c) (rendered c)
              (note c) (played c).

Definition tick_updatedCircles (s : State) : list Body :=
  map moveCircle (filter rendered (circles s)) ++ newCircles s.

Definition didGameEnd (s : State) : bool :=
  if (end_ (lastNote s) >=? 0%Q) && (time s >? end_ (lastNote s))
  then true else false.

Definition tick (s : State) : State :=
  mkState (didGameEnd s) (tick_updatedCircles s) (updatedNotes s)
          (updatedNotes s) (userNotes s) (noteIndex s) (roundedTime s)
          (lastNote s) (score s) (paused s).

(** ** The reducer of [state$] *)

(** The values carried by [action$]: ["tick"] from the game clock and
    ["H"], ["J"], ["K"], ["L"], ["Esc"] from the keyboard. *)
Inductive Action : Type := Tick | H | J | K | L | Esc.

Definition is_lane (a : Action) : Prop :=
  match a with
  | H | J | K | L => True
  | Tick | Esc => False
  end.

(** [keyToColumn[action]]; [None] is [undefined]. *)
Definition keyToColumn (a : Action) : option string :=
  match a with
  | H => Some "20%"
  | J => Some "40%"
  | K => Some "60%"
  | L => Some "80%"
  | Tick | Esc => None
  end.

Definition column_is (a : Action) (c : Body) : bool :=
  match keyToColumn a with
  | Some col => String.eqb col (cx c)
  | None => false
  end.

Definition eligible (s : State) (a : Action) (c : Body) : bool :=
  column_is a c
  && (JS.abs (start (note c) - time s) <? 0.7%Q)
  && rendered c
  && negb (played c).

(** The entries of an array with their positions.  [circle ===
    prioritizedCircle] compares object references; every entry of
    [s.circles] is an object of its own ([tick] builds a new one for each,
    the key branch replaces one and keeps the others), so an entry is
    identified by its position. *)
Definition indexed {A : Type} (l : list A) : list (nat * A) :=
  combine (seq 0 (List.length l)) l.

Definition eligibleCircles (s : State) (a : Action) : list (nat * Body) :=
  filter (fun ic => eligible s a (snd ic)) (indexed (circles s)).

Definition earlier (acc other : nat * Body) : nat * Body :=
  if start (note (snd other)) <? start (note (snd acc)) then other else acc.

(** [eligibleCircles.reduce(.., eligibleCircles[0])]: [undefined] ([None])
    on the empty array. *)
Definition prioritizedCircle (s : State) (a : Action) : option (nat * Body) :=
  match eligibleCircles s a with
  | [] => None
  | c0 :: _ => Some (fold_left earlier (eligibleCircles s a) c0)
  end.

Definition hitCircle (c : Body) : Body :=
  mkBody (r c) (cx c) (cy c) (style c) (class c) false (note c) true.

Definition is_prioritized (p : option (nat * Body)) (i : nat) : bool :=
  match p with
  | Some (j, _) => Nat.eqb i j
  | None => false
  end.

Definition key_updatedCircles (s : State) (a : Action) : list Body :=
  map (fun ic => if is_prioritized (prioritizedCircle s a) (fst ic)
                 then hitCircle (snd ic) else snd ic)
      (indexed (circles s)).

Definition addedPoints (s : State) (a : Action) : number :=
  match prioritizedCircle s a with
  | Some (_, c) =>
      if JS.abs (start (note c) - time s) <? Time.FORGIVING_MARGIN
      then 10%Q else 5%Q
  | None => 0%Q
  end.

Definition keyPress (s : State) (a : Action) : State :=
  mkState (gameEnd s) (key_updatedCircles s a) (notes s) (autoNotes s)
          (userNotes s) (noteIndex s) (time s) (lastNote s)
          (score s + addedPoints s a) (paused s).

Definition togglePause (s : State) : State :=
  mkState (gameEnd s) (circles s) (notes s) (autoNotes s) (userNotes s)
          (noteIndex s) (time s) (lastNote s) (score s) (negb (paused s)).

(** The function folded by [scan]. *)
Definition reducer (s : State) (action : Action) : State :=
  match action with
  | Esc => togglePause s
  | _ =>
      if negb (paused s) then
        match action with
        | Tick => tick s
        | _ => keyPress s action
        end
      else s
  end.

(** The state [state$] has reached after a sequence of actions. *)
Definition run (s : State) (acts : list Action) : State :=
  fold_left reducer acts s.

Definition initialState (Notes UserNotes AutoNotes : list NoteData)
    (LastNote : NoteData) : State :=
  mkState false [] Notes AutoNotes UserNotes 0%Q (JS.neg Time.OFFSET)
          LastNote 0%Q false.


(** ** Handling notes *)

(** Strings are sequences of ASCII characters.  The white space and line
    terminators that [trim] removes, among them: *)
Definition is_space (c : ascii) : bool :=
  match nat_of_ascii c with
  | 9 | 10 | 11 | 12 | 13 | 32 => true
  | _ => false
  end.

Fixpoint trimStart (s : string) : string :=
  match s with
  | EmptyString => EmptyString
  | String c s' => if is_space c then trimStart s' else s
  end.

Fixpoint trimEnd (s : string) : string :=
  match s with
  | EmptyString => EmptyString
  | String c s' =>
      match trimEnd s' with
      | EmptyString => if is_space c then EmptyString else String c EmptyString
      | t => String c t
      end
  end.

Definition trim (s : string) : string := trimEnd (trimStart s).

(** [s.split(sep)] for a separator of one character: never empty. *)
Fixpoint split (sep : ascii) (s : string) : list string :=
  match s with
  | EmptyString => [EmptyString]
  | String c s' =>
      if Ascii.eqb c sep then EmptyString :: split sep s'
      else match split sep s' with
           | cur :: rest => String c cur :: rest
           | [] => [String c EmptyString]
           end
  end.

(** Exceptions.  The only operation of the parser that can throw is a
    method call on [undefined]. *)
Inductive Exn : Type := TypeError.

Definition result (A : Type) : Type := (Exn + A)%type.

Definition ret {A : Type} (x : A) : result A := inr x.

Definition bind {A B : Type} (x : result A) (f : A -> result B) : result B :=
  match x with
  | inl e => inl e
  | inr v => f v
  end.

Notation "x <- e ;; k" := (bind e (fun x => k))
  (at level 61, e at next level, right associativity).

(** [Array.prototype.map] with a callback that may throw and that sees
    the position of the element: the first exception ends the loop. *)
Fixpoint mapi_result {A B : Type} (f : nat -> A -> result B) (i : nat)
    (l : list A) : result (list B) :=
  match l with
  | [] => ret []
  | x :: rest =>
      y <- f i x ;;
      ys <- mapi_result f (S i) rest ;;
      ret (y :: ys)
  end.

(** [x.trim()] where [x] may be [undefined] *)
Definition method_trim (x : option string) : result string :=
  match x with
  | Some s => ret (trim s)
  | None => inl TypeError
  end.

Section Parser.

(** The built-in conversion [Number(x)] of a string or [undefined]
    ([None]) to a number. *)
Variable Number : option string -> number.

(** The callback of [parseNotes]; the array destructuring binds
    [undefined] to the names that have no column. *)
Definition parseRow (i : nat) (row : string) : result NoteData :=
  let cols := split "," row in
  let user_played := nth_error cols 0 in
  let instrument := nth_error cols 1 in
  let velocity := nth_error cols 2 in
  let pitch := nth_error cols 3 in
  let start := nth_error cols 4 in
  let end_ := nth_error cols 5 in
  up <- method_trim user_played ;;
  ret (mkNoteData (String.eqb up "True") instrument (Number velocity)
                  (Number pitch)
                  (JS.round (Number start * 100%Q) / 100%Q)
                  (Number end_) None i).

(** What the callback of [parseNotes] makes of a row. *)
Definition rowNote (i : nat) (row : string) (n : NoteData) : Prop :=
  (user_played n = true <->
   exists c0, nth_error (split "," row) 0 = Some c0 /\ trim c0 = "True")
  /\ instrument n = nth_error (split "," row) 1
  /\ velocity n = Number (nth_error (split "," row) 2)
  /\ pitch n = Number (nth_error (split "," row) 3)
  /\ start n
     = JS.round (Number (nth_error (split "," row) 4) * 100%Q) / 100%Q
  /\ end_ n = Number (nth_error (split "," row) 5)
  /\ played_at n = None
  /\ oid n = i.

Definition newline : ascii := ascii_of_nat 10.

Definition parseNotes (csv : string) : result (list NoteData) :=
  mapi_result parseRow 0 (tl (split newline (trim csv))).

(** The arguments [startGame] prepares for [main]. *)
Record GameArgs : Type := mkGameArgs {
  Notes : list NoteData;
  UserNotes : list NoteData;
  AutoNotes : list NoteData;
  LastNote : option NoteData
}.

Definition later (acc other : NoteData) : NoteData :=
  if end_ other >? end_ acc then other else acc.

(** [notes.reduce(.., notes[0])]: [undefined] ([None]) on the empty
    array. *)
Definition findLast (notes : list NoteData) : option NoteData :=
  match notes with
  | [] => None
  | n0 :: _ => Some (fold_left later notes n0)
  end.

Definition startGame (contents : string) : result GameArgs :=
  notes <- parseNotes contents ;;
  ret (mkGameArgs notes
                  (filter (fun n => user_played n) notes)
                  (filter (fun n => negb (user_played n)) notes)
                  (findLast notes)).

End Parser.

(** [Number] on the texts a score uses: a decimal literal with an
    optional sign and an optional fraction, surrounded by white space; the
    empty text is 0; [undefined] and text that is no numeric literal are
    [NaN].  (Exponents, hexadecimal literals and the spelling of infinity
    are not covered.) *)
Definition digit (c : ascii) : option Z :=
  let n := nat_of_ascii c in
  if Nat.leb 48 n && Nat.leb n 57 then Some (Z.of_nat (n - 48)) else None.

Fixpoint digits (s : string) (acc : Z) (count : nat) : Z * nat * string :=
  match s with
  | EmptyString => (acc, count, s)
  | String c s' =>
      match digit c with
      | Some d => digits s' (10 * acc + d)%Z (S count)
      | None => (acc, count, s)
      end
  end.

Definition unsignedDecimal (s : string) : option Q :=
  let '(ip, n1, rest) := digits s 0%Z 0 in
  match rest with
  | EmptyString => if Nat.eqb n1 0 then None else Some (inject_Z ip)
  | String "." rest' =>
      let '(fp, n2, rest'') := digits rest' 0%Z 0 in
      match rest'' with
      | EmptyString =>
          if Nat.eqb (n1 + n2) 0 then None
          else Some (inject_Z ip + inject_Z fp / inject_Z (10 ^ Z.of_nat n2))%Q
      | _ => None
      end
  | _ => None
  end.

Definition decimalNumber (x : option string) : number :=
  match x with
  | None => NaN
  | Some s =>
      match trim s with
      | EmptyString => Num 0
      | String "-" s' =>
          match unsignedDecimal s' with
          | Some q => Num (- q)
          | None => NaN
          end
      | String "+" s' =>
          match unsignedDecimal s' with
          | Some q => Num q
          | None => NaN
          end
      | s' =>
          match unsignedDecimal s' with
          | Some q => Num q
          | None => NaN
          end
      end
  end.

(** ** The random number generator *)

Module RNG.
Definition m : number := 2147483648%Q.
Definition a : number := 1103515245%Q.
Definition c : number := 12345%Q.

Definition hash (seed : number) : number := (a * seed + c) %% m.

Definition scale (hash : number) : number := hash / (m - 1%Q).
End RNG.

(** ** Playing notes and showing the overlays *)

(** What [notePlayHelper] asks of the sampler of the note's instrument:
    an attack of the MIDI pitch [trig_pitch] at the note's velocity over
    127, released after [trig_duration] milliseconds. *)
Record Trigger : Type := mkTrigger {
  trig_note : NoteData;
  trig_duration : number;
  trig_pitch : number
}.

(** [currentNote.played_at == null] *)
Definition notePlayHelper (currentNote : NoteData) (duration pitch : number)
    : list Trigger :=
  match played_at currentNote with
  | None => [mkTrigger currentNote duration pitch]
  | Some _ => []
  end.

Definition playNote (currentNote : NoteData) (time : number) : list Trigger :=
  if JS.abs (start currentNote - JS.abs time) >? Time.FORGIVING_MARGIN
  then notePlayHelper currentNote
         (RNG.scale (RNG.hash (start currentNote)) * 0.5%Q)
         (RNG.scale (RNG.hash (pitch currentNote)) * 100%Q)
  else notePlayHelper currentNote
         ((end_ currentNote - start currentNote) * 1000%Q)
         (pitch currentNote).

(** The two loops of the subscriber that play notes: the circles that
    were hit, then the background notes that are due. *)
Definition circleSounds (s : State) : list Trigger :=
  flat_map (fun c => playNote (note c) (time s))
           (filter (fun c => negb (rendered c) && played c) (circles s)).

Definition backgroundSounds (s : State) : list Trigger :=
  flat_map (fun n => playNote n (time s))
           (filter (fun n =>
                      (JS.round (start n * 1000%Q) / 1000%Q - time s) === 0%Q)
                   (autoNotes s)).

Definition playedSounds (s : State) : list Trigger :=
  circleSounds s ++ backgroundSounds s.

(** The end of the subscriber: [show] sets the attribute [visibility] of
    an element to visible, [hide] to hidden.  The pair is the visibility
    of the game-over element and of the paused element; when the game has
    ended the paused element is not touched. *)
Definition overlays (s : State) (visible : bool * bool) : bool * bool :=
  if gameEnd s then (true, snd visible)
  else (false, paused s).

(** The overlays after the subscriber has seen the states that [state$]
    emits for a sequence of actions, one state for every action. *)
Fixpoint overlaysAfter (s : State) (visible : bool * bool)
    (acts : list Action) : bool * bool :=
  match acts with
  | [] => visible
  | a :: rest =>
      overlaysAfter (reducer s a) (overlays (reducer s a) visible) rest
  end.

(** ** Auxiliary definitions of the proofs *)

Definition indexed_from {A : Type} (k : nat) (l : list A) : list (nat * A) :=
  combine (seq k (List.length l)) l.


(** The start of the note of an entry of [eligibleCircles]. *)
Definition startOf (x : nat * Body) : number := start (note (snd x)).

(** The game has ended and the time is past the end of the last note. *)
Definition Latched (s : State) : Prop :=
  gameEnd s = true
  /\ (end_ (lastNote s) >=? 0%Q) = true
  /\ (time s >? end_ (lastNote s)) = true.

(** The identity of the note a circle holds. *)
Definition noteOf (c : Body) : nat := oid (note c).

(** What the circles of a game on the user notes [U] satisfy: the time
    is a number, every circle holds one of the user notes, one whose spawn
    window is past, and no two circles hold the same note. *)
Definition CirclesInv (U : list NoteData) (s : State) : Prop :=
  userNotes s = U
  /\ is_num (time s)
  /\ Forall (fun c => In (note c) U
                      /\ (start (note c) <? time s + Time.OFFSET) = true)
            (circles s)
  /\ NoDup (map noteOf (circles s)).

(** The number of ticks the reducer lets through, from a state that is
    paused or not. *)
Fixpoint ticksTaken (p : bool) (acts : list Action) : nat :=
  match acts with
  | [] => 0
  | Esc :: rest => ticksTaken (negb p) rest
  | Tick :: rest => if p then ticksTaken p rest else S (ticksTaken p rest)
  | _ :: rest => ticksTaken p rest
  end.

(** A circle that a key can still select, and a user note for which no
    circle has been made yet. *)
Definition live (c : Body) : bool := rendered c && negb (played c).

Definition upcoming (s : State) (n : NoteData) : bool :=
  start n >=? time s + Time.OFFSET.

(** The time is a whole number [k] of milliseconds. *)
Definition onGrid (s : State) (k : Z) : Prop :=
  exists t, time s = Num t /\ (t * 1000 == inject_Z k)%Q.



(** The state of a game whose last note ends at [e] seconds, after [n]
    ticks were let through: [gameEnd] tells whether the time before the
    last of them was past [e]. *)
Definition EndInv (e : Q) (s : State) (n : nat) : Prop :=
  end_ (lastNote s) = Num e
  /\ onGrid s (-3500 + 10 * Z.of_nat n)
  /\ (gameEnd s = true <->
      (1 <= n)%nat
      /\ (e * 1000 < inject_Z (-3500 + 10 * (Z.of_nat n - 1)))%Q).

(** The points scored, the circles that can still be hit and the notes
    still to come never add up to more than 10 points for a user note. *)
Definition ScoreInv (s : State) : Prop :=
  is_num (time s)
  /\ exists points : Z,
       (exists q, score s = Num q /\ (q == inject_Z points)%Q)
       /\ (0 <= points)%Z /\ (5 | points)%Z
       /\ (points
           + 10 * Z.of_nat (List.length (filter live (circles s))
                            + List.length (filter (upcoming s) (userNotes s)))
           <= 10 * Z.of_nat (List.length (userNotes s)))%Z.

(** ** Example data *)

(** A user note of pitch 60 lasting from 2.00 s to 2.50 s and a background
    note; [demoState] is the state 510 ticks after the start of the game,
    at 1.6 s, when the circle of the user note is 0.4 s early. *)
Definition demoNote : NoteData :=
  mkNoteData true (Some "piano") 100%Q 60%Q 2.00%Q 2.50%Q None 0.

Definition demoAuto : NoteData :=
  mkNoteData false (Some "violin") 90%Q 62%Q 1.00%Q 1.50%Q None 1.

Definition demoStart : State :=
  initialState [demoNote; demoAuto] [demoNote] [demoAuto] demoNote.

Definition demoCircle : Body :=
  mkBody 14.00%Q "20%" 309%Q "fill: green" "shadow" true demoNote false.

Definition demoState : State :=
  mkState false [demoCircle] [] [] [demoNote] 0%Q 1.600%Q demoNote 0%Q false.

Definition demoPaused : State := reducer demoState Esc.

(** The state 450 ticks after the start, at 1.0 s, when the background
    note is due, and the state after 600 ticks, at 2.5 s, the end of the
    last note. *)
Definition demoDue : State :=
  mkState false
          [mkBody 14.00%Q "20%" 249%Q "fill: green" "shadow" true demoNote
                  false]
          [demoAuto] [demoAuto] [demoNote] 0%Q 1.000%Q demoNote 0%Q false.

Definition demoLast : State :=
  mkState false [] [] [] [demoNote] 0%Q 2.500%Q demoNote 0%Q false.

(** The state after 200 ticks, at -1.5 s, 3.5 s before the user note. *)
Definition demoSpawn : State :=
  mkState false [] [demoAuto] [demoAuto] [demoNote] 0%Q (-1.500)%Q demoNote
          0%Q false.

(** A score whose first row has five columns and a velocity that is not
    numeric, and a score that is a header with no row. *)
Definition badScore : string :=
  String.concat (String newline "")
    ["user_played,instrument,velocity,pitch,start,end";
     "True,piano,abc,60,2.0";
     "False,violin,90,62,1.0,1.5"].



Close Scope js_scope.
Close Scope string_scope.

(** ** Facts about numbers *)

Section NumberFacts.

Local Open Scope js_scope.

Lemma Qltb_lt (p q : Q) : JS.Qltb p q = true <-> (p < q)%Q.
Proof. unfold JS.Qltb, Qlt. apply Z.ltb_lt. Qed.

Lemma Qltb_nlt (p q : Q) : JS.Qltb p q = false <-> (q <= p)%Q.
Proof. unfold JS.Qltb, Qle. apply Z.ltb_ge. Qed.

Lemma ltb_inv (x y : number) :
  (x <? y) = true -> exists p q, x = Num p /\ y = Num q /\ (p < q)%Q.
Proof.
  destruct x as [p|], y as [q|]; simpl; try discriminate.
  intros E. exists p, q. now rewrite <- Qltb_lt.
Qed.

Lemma leb_inv (x y : number) :
  (x <=? y) = true -> exists p q, x = Num p /\ y = Num q /\ (p <= q)%Q.
Proof.
  destruct x as [p|], y as [q|]; simpl; try discriminate.
  intros E. exists p, q. now rewrite <- Qle_bool_iff.
Qed.

Lemma ltb_Num (p q : Q) : (Num p <? Num q) = true <-> (p < q)%Q.
Proof. apply Qltb_lt. Qed.

Lemma leb_Num (p q : Q) : (Num p <=? Num q) = true <-> (p <= q)%Q.
Proof. apply Qle_bool_iff. Qed.

Lemma is_num_inv (x : number) : is_num x -> exists p, x = Num p.
Proof. destruct x as [p|]; simpl; [eauto | tauto]. Qed.

Lemma ltb_is_num (x y : number) : (x <? y) = true -> is_num x /\ is_num y.
Proof. destruct x, y; simpl; try discriminate; auto. Qed.


Lemma ltb_trans (x y z : number) :
  (x <? y) = true -> (y <? z) = true -> (x <? z) = true.
Proof.
  intros (p & q & -> & -> & Hpq)%ltb_inv (q' & u & E & -> & Hqu)%ltb_inv.
  injection E as <-. apply ltb_Num. lra.
Qed.

Lemma ltb_geb_false (x y : number) :
  (x <? y) = true -> (x >=? y) = true -> False.
Proof.
  intros (p & q & -> & -> & Hpq)%ltb_inv Hge. unfold JS.geb in Hge.
  apply leb_Num in Hge. lra.
Qed.

(** The rounded time of a tick, on a time that is a number. *)
Lemma roundedTime_Num (s : State) (t : Q) :
  time s = Num t ->
  roundedTime s
  = Num (inject_Z (Qfloor ((t + (10 # 1000)) * 1000 + (1 # 2))) / 1000)%Q.
Proof. intros E. unfold roundedTime, updatedTime. rewrite E. reflexivity. Qed.

(** A tick moves the time forward, by more than 9 ms. *)
Lemma roundedTime_gt (s : State) (t : Q) :
  time s = Num t ->
  exists t', roundedTime s = Num t' /\ (t + 0.009 < t')%Q.
Proof.
  intros E. rewrite (roundedTime_Num s t E). eexists. split; [reflexivity|].
  set (x := ((t + (10 # 1000)) * 1000 + (1 # 2))%Q).
  pose proof (Qlt_floor x) as Hx. rewrite inject_Z_plus in Hx.
  change (inject_Z 1) with 1%Q in Hx. subst x.
  apply Qlt_shift_div_l; [reflexivity|]. lra.
Qed.

End NumberFacts.

(** ** Arrays with positions *)

Section Indexed.

Context {A : Type}.

Lemma indexed_from_cons (k : nat) (x : A) (l : list A) :
  indexed_from k (x :: l) = (k, x) :: indexed_from (S k) l.
Proof. reflexivity. Qed.

Lemma in_indexed_from (l : list A) : forall k i c,
  In (i, c) (indexed_from k l) <-> k <= i /\ nth_error l (i - k) = Some c.
Proof.
  induction l as [|x l IH]; intros k i c.
  - simpl. split; [tauto|]. intros [_ E]. now destruct (i - k).
  - rewrite indexed_from_cons. simpl. rewrite IH. split.
    + intros [E | [Hle E]].
      * injection E as <- <-. rewrite Nat.sub_diag. auto.
      * split; [lia|]. replace (i - k) with (S (i - S k)) by lia. exact E.
    + intros [Hle E]. destruct (Nat.eq_dec k i) as [<- | Hne].
      * rewrite Nat.sub_diag in E. injection E as <-. now left.
      * right. split; [lia|].
        replace (i - k) with (S (i - S k)) in E by lia. exact E.
Qed.

Lemma in_indexed (l : list A) (i : nat) (c : A) :
  In (i, c) (indexed l) <-> nth_error l i = Some c.
Proof.
  change (indexed l) with (indexed_from 0 l). rewrite in_indexed_from.
  rewrite Nat.sub_0_r. split; [tauto | split; [lia | assumption]].
Qed.




Lemma nth_error_map_indexed_from (B : Type) (f : nat * A -> B) (l : list A) :
  forall k i,
  nth_error (map f (indexed_from k l)) i
  = option_map (fun c => f (k + i, c)) (nth_error l i).
Proof.
  induction l as [|x l IH]; intros k i.
  - now destruct i.
  - rewrite indexed_from_cons. destruct i as [|i]; simpl.
    + now rewrite Nat.add_0_r.
    + rewrite IH. now rewrite Nat.add_succ_r.
Qed.

Lemma nth_error_map_indexed (B : Type) (f : nat * A -> B) (l : list A)
    (i : nat) :
  nth_error (map f (indexed l)) i
  = option_map (fun c => f (i, c)) (nth_error l i).
Proof. apply (nth_error_map_indexed_from B f l 0 i). Qed.


End Indexed.

(** ** The circle a key press selects *)

Section Prioritized.

Local Open Scope js_scope.

Lemma ltb_nltb_trans (x y z : number) :
  (x <? y) = true -> (z <? y) = false -> is_num z -> (x <? z) = true.
Proof.
  intros (p & q & -> & -> & Hpq)%ltb_inv Hz [u ->]%is_num_inv.
  apply Qltb_nlt in Hz. apply ltb_Num. lra.
Qed.

Lemma nltb_leb (x y : number) :
  is_num x -> is_num y -> (x <? y) = false -> (y <=? x) = true.
Proof.
  intros [p ->]%is_num_inv [q ->]%is_num_inv Hlt.
  apply Qltb_nlt in Hlt. now apply leb_Num.
Qed.

(** [reduce] with the comparison of the key branch: the result is the
    accumulator when no element starts strictly before it, and otherwise
    the first of the elements with the least start. *)
Lemma fold_earlier_spec (l : list (nat * Body)) : forall acc,
  Forall (fun x => is_num (startOf x)) l ->
  (fold_left earlier l acc = acc
   /\ forall x, In x l -> (startOf x <? startOf acc) = false)
  \/ (exists l1 l2,
        l = l1 ++ fold_left earlier l acc :: l2
        /\ (startOf (fold_left earlier l acc) <? startOf acc) = true
        /\ (forall x, In x l1 ->
              (startOf (fold_left earlier l acc) <? startOf x) = true)
        /\ (forall x, In x l2 ->
              (startOf x <? startOf (fold_left earlier l acc)) = false)).
Proof.
  induction l as [|x l IH]; intros acc Hnum.
  - left. simpl. tauto.
  - apply Forall_cons_iff in Hnum as [Hx Hnum]. simpl fold_left.
    unfold earlier at 2 4 6 8 10. fold (startOf x) (startOf acc).
    destruct (startOf x <? startOf acc) eqn:Hlt.
    + right. destruct (IH x Hnum) as [[E Hall] | (l1 & l2 & E & Hm & H1 & H2)].
      * exists [], l. rewrite E. simpl. repeat split; auto; tauto.
      * exists (x :: l1), l2. simpl. rewrite <- E. repeat split; auto.
        -- eapply ltb_trans; eassumption.
        -- intros y [<- | Hy]; auto.
    + destruct (IH acc Hnum) as [[E Hall] | (l1 & l2 & E & Hm & H1 & H2)].
      * left. split; [exact E|]. intros y [<- | Hy]; auto.
      * right. exists (x :: l1), l2. simpl. rewrite <- E. repeat split; auto.
        intros y [<- | Hy]; auto. eapply ltb_nltb_trans; eassumption.
Qed.

Lemma eligible_inv (s : State) (a : Action) (c : Body) :
  eligible s a c = true <->
  column_is a c = true
  /\ (JS.abs (start (note c) - time s) <? 0.7%Q) = true
  /\ rendered c = true /\ played c = false.
Proof.
  unfold eligible. rewrite !andb_true_iff, negb_true_iff. tauto.
Qed.

Lemma eligible_start_num (s : State) (a : Action) (c : Body) :
  eligible s a c = true -> is_num (start (note c)) /\ is_num (time s).
Proof.
  intros (_ & Hw & _)%eligible_inv.
  destruct (start (note c)), (time s); simpl in *; try discriminate; auto.
Qed.

Lemma in_eligibleCircles (s : State) (a : Action) (i : nat) (c : Body) :
  In (i, c) (eligibleCircles s a) <->
  nth_error (circles s) i = Some c /\ eligible s a c = true.
Proof.
  unfold eligibleCircles. rewrite filter_In, in_indexed. reflexivity.
Qed.

Lemma eligibleCircles_num (s : State) (a : Action) :
  Forall (fun x => is_num (startOf x)) (eligibleCircles s a).
Proof.
  apply Forall_forall. intros [i c] Hin. apply in_eligibleCircles in Hin.
  apply (eligible_start_num s a c), Hin.
Qed.



(** The selected entry splits the candidates: those before it start
    strictly later, those after it do not start earlier. *)
Lemma prioritizedCircle_split (s : State) (a : Action) (m : nat * Body) :
  prioritizedCircle s a = Some m ->
  exists l1 l2,
    eligibleCircles s a = l1 ++ m :: l2
    /\ (forall x, In x l1 -> (startOf m <? startOf x) = true)
    /\ (forall x, In x l2 -> (startOf m <=? startOf x) = true).
Proof.
  unfold prioritizedCircle. pose proof (eligibleCircles_num s a) as Hnum.
  destruct (eligibleCircles s a) as [|c0 l]; [discriminate|].
  intros E. injection E as <-.
  apply Forall_cons_iff in Hnum as [H0 Hnum]. simpl fold_left.
  assert (E0 : earlier c0 c0 = c0).
  { unfold earlier. now destruct (_ <? _). }
  rewrite E0.
  destruct (fold_earlier_spec l c0 Hnum)
    as [[E Hall] | (l1 & l2 & E & Hm & H1 & H2)].
  - exists [], l. rewrite E. simpl. repeat split; try tauto.
    intros x Hx. rewrite Forall_forall in Hnum. apply nltb_leb; auto.
  - exists (c0 :: l1), l2. simpl. rewrite <- E. repeat split.
    + intros x [<- | Hx]; auto.
    + intros x Hx. apply nltb_leb; auto.
      * rewrite Forall_forall in Hnum. apply Hnum. rewrite E.
        apply in_or_app. right. now right.
      * apply ltb_is_num in Hm. tauto.
Qed.

Lemma prioritizedCircle_in (s : State) (a : Action) (m : nat * Body) :
  prioritizedCircle s a = Some m -> In m (eligibleCircles s a).
Proof.
  intros (l1 & l2 & -> & _)%prioritizedCircle_split.
  apply in_or_app. right. now left.
Qed.

End Prioritized.

(** ** Key presses *)

Section KeyPress.

Local Open Scope js_scope.

Example demoState_reached : run demoStart (repeat Tick 510) = demoState.
Proof. vm_compute. reflexivity. Qed.

Lemma reducer_lane (s : State) (a : Action) :
  paused s = false -> is_lane a -> reducer s a = keyPress s a.
Proof. intros Hp Ha. unfold reducer. rewrite Hp. now destruct a. Qed.



Lemma nth_error_key_updatedCircles (s : State) (a : Action) (i : nat) :
  nth_error (key_updatedCircles s a) i
  = option_map
      (fun c => if is_prioritized (prioritizedCircle s a) i
                then hitCircle c else c)
      (nth_error (circles s) i).
Proof. unfold key_updatedCircles. now rewrite nth_error_map_indexed. Qed.

Lemma key_updatedCircles_None (s : State) (a : Action) :
  prioritizedCircle s a = None -> key_updatedCircles s a = circles s.
Proof.
  intros E. apply nth_error_ext. intros i.
  rewrite nth_error_key_updatedCircles, E. simpl.
  now destruct (nth_error (circles s) i).
Qed.

Lemma key_updatedCircles_hit (s : State) (a : Action) (j : nat) (m : Body) :
  prioritizedCircle s a = Some (j, m) ->
  nth_error (key_updatedCircles s a) j = Some (hitCircle m).
Proof.
  intros E. rewrite nth_error_key_updatedCircles, E. simpl.
  apply prioritizedCircle_in, in_eligibleCircles in E as [-> _].
  simpl. now rewrite Nat.eqb_refl.
Qed.

Lemma key_updatedCircles_other (s : State) (a : Action) (j : nat) (m : Body)
    (i : nat) :
  prioritizedCircle s a = Some (j, m) -> i <> j ->
  nth_error (key_updatedCircles s a) i = nth_error (circles s) i.
Proof.
  intros E Hne. rewrite nth_error_key_updatedCircles, E. simpl.
  apply Nat.eqb_neq in Hne. rewrite Hne.
  now destruct (nth_error (circles s) i).
Qed.







(** C10.  A key of a lane in a state that is not paused changes nothing
    but the circles and the score. *)
Theorem C10_key_press_frame (s : State) (a : Action) :
  paused s = false -> is_lane a ->
  time (reducer s a) = time s
  /\ gameEnd (reducer s a) = gameEnd s
  /\ paused (reducer s a) = paused s
  /\ autoNotes (reducer s a) = autoNotes s
  /\ userNotes (reducer s a) = userNotes s
  /\ lastNote (reducer s a) = lastNote s
  /\ notes (reducer s a) = notes s
  /\ noteIndex (reducer s a) = noteIndex s.
Proof.
  intros Hp Ha. rewrite (reducer_lane s a Hp Ha). simpl. repeat split.
Qed.

Lemma C10_key_press_frame_witness :
  paused demoState = false /\ is_lane K
  /\ time (reducer demoState K) = time demoState.
Proof.
  assert (Hp : paused demoState = false) by reflexivity.
  assert (Ha : is_lane K) by exact I.
  split; [exact Hp|]. split; [exact Ha|].
  apply (C10_key_press_frame demoState K Hp Ha).
Defined.

(** C5.  In a paused state every action but the pause key (a tick or the
    key of a lane) returns the state it was given: no field changes, and
    the time in particular does not advance. *)
Theorem C5_paused_freeze (s : State) (a : Action) :
  paused s = true -> a <> Esc ->
  reducer s a = s /\ time (reducer s a) = time s.
Proof.
  intros Hp Ha. assert (E : reducer s a = s).
  { unfold reducer. rewrite Hp. destruct a; try reflexivity. now elim Ha. }
  now rewrite E.
Qed.

Lemma C5_paused_freeze_witness :
  paused demoPaused = true /\ Tick <> Esc
  /\ reducer demoPaused Tick = demoPaused.
Proof.
  assert (Hp : paused demoPaused = true) by reflexivity.
  assert (Ha : Tick <> Esc) by discriminate.
  split; [exact Hp|]. split; [exact Ha|].
  apply (C5_paused_freeze demoPaused Tick Hp Ha).
Defined.

End KeyPress.

(** ** Ticks *)

Section Tick.

Local Open Scope js_scope.

Example demoDue_reached : run demoStart (repeat Tick 450) = demoDue.
Proof. vm_compute. reflexivity. Qed.

Example demoLast_reached : run demoStart (repeat Tick 600) = demoLast.
Proof. vm_compute. reflexivity. Qed.

Example demoSpawn_reached : run demoStart (repeat Tick 200) = demoSpawn.
Proof. vm_compute. reflexivity. Qed.

Lemma stampNote_spec (s : State) (n : NoteData) :
  (played_at n = None /\ (time s <=? start n) = true
   /\ (start n <? time (tick s)) = true ->
   stampNote s n
   = mkNoteData (user_played n) (instrument n) (velocity n) (pitch n)
                (start n) (end_ n) (Some (time s)) (oid n))
  /\ (~ (played_at n = None /\ (time s <=? start n) = true
         /\ (start n <? time (tick s)) = true) ->
      stampNote s n = n)
  /\ (forall t, played_at n = Some t -> played_at (stampNote s n) = Some t).
Proof.
  unfold stampNote, JS.geb. simpl time.
  destruct (played_at n) as [t|] eqn:Ep.
  - repeat split; try congruence. intros [? _]. discriminate.
  - destruct (start n <? roundedTime s) eqn:E1;
      destruct (time s <=? start n) eqn:E2; simpl;
      repeat split; try tauto; try discriminate;
      intros (_ & ? & ?); discriminate.
Qed.







End Tick.

(** ** The end of the game *)

Section GameEnd.

Local Open Scope js_scope.

Lemma didGameEnd_true (s : State) :
  didGameEnd s = true <->
  (end_ (lastNote s) >=? 0%Q) = true /\ (time s >? end_ (lastNote s)) = true.
Proof.
  unfold didGameEnd. rewrite <- andb_true_iff.
  destruct (_ && _); split; congruence.
Qed.

(** A tick never moves the time back below a number it had passed. *)
Lemma tick_time_gtb (s : State) (x : number) :
  (time s >? x) = true -> (time (tick s) >? x) = true.
Proof.
  unfold JS.gtb. intros (e & t & -> & Et & Hlt)%ltb_inv.
  destruct (roundedTime_gt s t Et) as (t' & E' & Ht'). simpl time.
  rewrite E'. apply ltb_Num. lra.
Qed.

Lemma Latched_tick (s : State) : Latched s -> Latched (tick s).
Proof.
  intros (_ & Hend & Htime). unfold Latched. simpl gameEnd. simpl lastNote.
  rewrite didGameEnd_true. auto using tick_time_gtb.
Qed.

Lemma Latched_reducer (s : State) (a : Action) :
  Latched s -> Latched (reducer s a).
Proof.
  intros HL. unfold reducer.
  destruct a; try exact HL; destruct (paused s); simpl negb; cbv iota;
    try exact HL; try (now apply Latched_tick); exact HL.
Qed.

Lemma Latched_run (acts : list Action) : forall s,
  Latched s -> Latched (run s acts).
Proof.
  induction acts as [|a acts IH]; intros s HL; [exact HL|].
  apply IH, Latched_reducer, HL.
Qed.

(** C6, the instance that fails: after the tick from 2.50 s to 2.51 s the
    end of the last note, 2.50 s, is non-negative and the time of the
    state is past it, and [gameEnd] is false. *)
Lemma C6_gameEnd_lags_one_tick :
  time (tick demoLast) = Num 2.510%Q
  /\ (end_ (lastNote (tick demoLast)) >=? 0%Q) = true
  /\ (time (tick demoLast) >? end_ (lastNote (tick demoLast))) = true
  /\ gameEnd (tick demoLast) = false.
Proof. vm_compute. repeat split. Qed.

(** C6, as the code has it.  In the state a tick produces [gameEnd] is
    true exactly when the end of the last note is non-negative and the
    time of the state the tick started from is past that end; the time of
    the new state is then past it too; and once a tick has produced
    [gameEnd = true], no sequence of ticks, lane keys and pause keys leads
    to a state where it is false. *)
Theorem C6_gameEnd_latch :
  (forall s,
      gameEnd (tick s) = true <->
      (end_ (lastNote s) >=? 0%Q) = true
      /\ (time s >? end_ (lastNote s)) = true)
  /\ (forall s,
        gameEnd (tick s) = true ->
        (time (tick s) >? end_ (lastNote (tick s))) = true)
  /\ (forall s acts,
        gameEnd (tick s) = true -> gameEnd (run (tick s) acts) = true).
Proof.
  split; [|split].
  - intros s. apply didGameEnd_true.
  - intros s [_ Ht]%didGameEnd_true. now apply tick_time_gtb.
  - intros s acts Hend.
    assert (HL : Latched (tick s)).
    { split; [exact Hend|]. apply didGameEnd_true in Hend as [He Ht].
      split; [exact He | now apply tick_time_gtb]. }
    apply (Latched_run acts (tick s) HL).
Qed.

Lemma C6_gameEnd_latch_witness :
  gameEnd (tick (tick demoLast)) = true
  /\ gameEnd (run (tick (tick demoLast)) [Tick; H; Esc; Tick; Esc; Tick])
     = true.
Proof.
  assert (He : gameEnd (tick (tick demoLast)) = true) by reflexivity.
  split; [exact He|].
  apply (proj2 (proj2 C6_gameEnd_latch) (tick demoLast) _ He).
Defined.

End GameEnd.

(** ** One circle for a note *)

Section OneCirclePerNote.

Local Open Scope js_scope.

Lemma NoDup_map_filter {A B : Type} (key : A -> B) (keep : A -> bool)
    (xs : list A) :
  NoDup (map key xs) -> NoDup (map key (filter keep xs)).
Proof.
  induction xs as [|x xs IH]; simpl; intros Hnd; [constructor|].
  apply NoDup_cons_iff in Hnd as [Hx Hnd]. destruct (keep x); [|auto].
  simpl. constructor; [|auto]. intros Hin. apply Hx.
  apply in_map_iff in Hin as (y & E & Hy). apply filter_In in Hy as [Hy _].
  rewrite <- E. now apply in_map.
Qed.

Lemma NoDup_map_inj_in {A B : Type} (f : A -> B) (l : list A) (x y : A) :
  NoDup (map f l) -> In x l -> In y l -> f x = f y -> x = y.
Proof.
  induction l as [|z l IH]; simpl; intros Hnd Hx Hy E; [contradiction|].
  apply NoDup_cons_iff in Hnd as [Hz Hnd].
  destruct Hx as [<- | Hx], Hy as [<- | Hy]; auto.
  - elim Hz. rewrite E. now apply in_map.
  - elim Hz. rewrite <- E. now apply in_map.
Qed.

Lemma noteOf_moveCircle (c : Body) : note (moveCircle c) = note c.
Proof. unfold moveCircle. now destruct (_ >=? _). Qed.

Lemma key_updatedCircles_notes (s : State) (a : Action) :
  map note (key_updatedCircles s a) = map note (circles s).
Proof.
  apply nth_error_ext. intros i.
  rewrite !nth_error_map, nth_error_key_updatedCircles.
  destruct (nth_error (circles s) i) as [c|]; [|reflexivity]. simpl.
  now destruct (is_prioritized _ _).
Qed.

Lemma CirclesInv_init (Notes UserNotes AutoNotes : list NoteData)
    (LastNote : NoteData) :
  CirclesInv UserNotes (initialState Notes UserNotes AutoNotes LastNote).
Proof. repeat split; simpl; constructor. Qed.

Lemma CirclesInv_tick (U : list NoteData) (s : State) :
  NoDup (map oid U) -> CirclesInv U s -> CirclesInv U (tick s).
Proof.
  intros HU (EU & [t Et]%is_num_inv & Hall & Hnd).
  destruct (roundedTime_gt s t Et) as (t' & Et' & Hlt).
  rewrite Forall_forall in Hall.
  assert (Hold : forall c, In c (filter rendered (circles s)) ->
            In (note c) U /\ (start (note c) <? time s + Time.OFFSET) = true).
  { intros c Hc. apply filter_In in Hc as [Hc _]. now apply Hall. }
  assert (Hnew : forall n, In n (newNotes s) ->
            In n U /\ (start n <? roundedTime s + Time.OFFSET) = true
            /\ (start n >=? time s + Time.OFFSET) = true).
  { intros n Hn. unfold newNotes in Hn. rewrite EU in Hn.
    apply filter_In in Hn as [Hn Hw]. apply andb_true_iff in Hw. tauto. }
  split; [exact EU|]. split; [simpl; now rewrite Et'|]. split.
  - apply Forall_forall. intros c Hc. simpl in Hc.
    unfold tick_updatedCircles in Hc. apply in_app_or in Hc as [Hc | Hc].
    + apply in_map_iff in Hc as (c0 & <- & Hc0).
      rewrite noteOf_moveCircle. destruct (Hold c0 Hc0) as [Hin Hs].
      split; [exact Hin|]. simpl time. rewrite Et'. rewrite Et in Hs.
      apply ltb_inv in Hs as (x & y & Ex & Ey & Hxy). rewrite Ex.
      injection Ey as <-. apply ltb_Num. lra.
    + unfold newCircles in Hc. apply in_map_iff in Hc as (n & <- & Hn).
      simpl. destruct (Hnew n Hn) as (Hin & Hs & _). auto.
  - simpl circles. unfold tick_updatedCircles, newCircles.
    rewrite map_app, !map_map. apply NoDup_app.
    + rewrite (map_ext (fun c => noteOf (moveCircle c)) noteOf).
      * now apply NoDup_map_filter.
      * intros c. unfold noteOf. now rewrite noteOf_moveCircle.
    + unfold newNotes. rewrite EU. now apply (NoDup_map_filter oid).
    + intros k Hk1 Hk2.
      apply in_map_iff in Hk1 as (c & Ec & Hc).
      apply in_map_iff in Hk2 as (n & En & Hn).
      unfold noteOf in Ec. rewrite noteOf_moveCircle in Ec.
      destruct (Hold c Hc) as [HcU Hlate].
      destruct (Hnew n Hn) as (HnU & _ & Hearly).
      assert (E : note c = n).
      { apply (NoDup_map_inj_in oid U); auto. unfold noteOf in En.
        simpl in En. congruence. }
      rewrite E in Hlate. apply (ltb_geb_false _ _ Hlate Hearly).
Qed.

Lemma CirclesInv_keyPress (U : list NoteData) (s : State) (a : Action) :
  CirclesInv U s -> CirclesInv U (keyPress s a).
Proof.
  intros (EU & Ht & Hall & Hnd). split; [exact EU|]. split; [exact Ht|].
  simpl circles. simpl time. split.
  - apply Forall_forall. intros c Hc. unfold key_updatedCircles in Hc.
    apply in_map_iff in Hc as ([i c0] & <- & Hc0).
    apply in_indexed in Hc0. apply nth_error_In in Hc0.
    rewrite Forall_forall in Hall. specialize (Hall c0 Hc0). simpl.
    now destruct (is_prioritized _ _).
  - unfold noteOf. rewrite <- map_map with (f := note) (g := oid).
    rewrite key_updatedCircles_notes, map_map. exact Hnd.
Qed.

Lemma CirclesInv_reducer (U : list NoteData) (s : State) (a : Action) :
  NoDup (map oid U) -> CirclesInv U s -> CirclesInv U (reducer s a).
Proof.
  intros HU HI. unfold reducer.
  destruct a; try exact HI; destruct (paused s); simpl negb; cbv iota;
    try exact HI; try (now apply CirclesInv_tick);
    now apply CirclesInv_keyPress.
Qed.

Lemma CirclesInv_run (U : list NoteData) (acts : list Action) : forall s,
  NoDup (map oid U) -> CirclesInv U s -> CirclesInv U (run s acts).
Proof.
  induction acts as [|a acts IH]; intros s HU HI; [exact HI|].
  apply IH; [exact HU|]. now apply CirclesInv_reducer.
Qed.

(** C7.  In a game whose user notes are pairwise distinct objects, after
    any sequence of ticks, lane keys and pause keys no two circles hold
    the same note, whether they are rendered or not; in particular two
    rendered circles that hold the same note are one circle. *)
Theorem C7_one_circle_per_note
    (Notes UserNotes AutoNotes : list NoteData) (LastNote : NoteData)
    (acts : list Action) :
  NoDup (map oid UserNotes) ->
  NoDup (map (fun c => oid (note c))
             (circles (run (initialState Notes UserNotes AutoNotes LastNote)
                           acts)))
  /\ forall i j ci cj,
       nth_error (circles (run (initialState Notes UserNotes AutoNotes
                                             LastNote) acts)) i = Some ci ->
       nth_error (circles (run (initialState Notes UserNotes AutoNotes
                                             LastNote) acts)) j = Some cj ->
       rendered ci = true -> rendered cj = true ->
       oid (note ci) = oid (note cj) ->
       i = j.
Proof.
  intros HU.
  pose proof (CirclesInv_run UserNotes acts _ HU
                (CirclesInv_init Notes UserNotes AutoNotes LastNote))
    as (_ & _ & _ & Hnd).
  split; [exact Hnd|]. intros i j ci cj Hi Hj _ _ E.
  apply (proj1 (NoDup_nth_error _) Hnd).
  - apply nth_error_Some. rewrite nth_error_map, Hi. discriminate.
  - rewrite !nth_error_map, Hi, Hj. unfold noteOf. simpl. now rewrite E.
Qed.

Lemma C7_one_circle_per_note_witness :
  NoDup (map oid [demoNote])
  /\ NoDup (map (fun c => oid (note c))
               (circles (run demoStart (repeat Tick 510 ++ [H; H])))).
Proof.
  assert (HU : NoDup (map oid [demoNote])).
  { repeat constructor. simpl. tauto. }
  split; [exact HU|].
  apply (C7_one_circle_per_note [demoNote; demoAuto] [demoNote] [demoAuto]
           demoNote (repeat Tick 510 ++ [H; H]) HU).
Defined.

End OneCirclePerNote.

(** ** The random number generator *)

Section RandomNumbers.

Local Open Scope js_scope.

Lemma Qtrunc_integer_div (x : Q) (d : positive) :
  Qden x = 1%positive ->
  JS.Qtrunc (x / inject_Z (Zpos d)) = Z.quot (Qnum x) (Zpos d).
Proof.
  destruct x as [n e]. simpl. intros ->.
  unfold JS.Qtrunc, Qdiv, Qmult, Qinv. simpl. now rewrite Z.mul_1_r.
Qed.

Lemma inject_Z_sub_mul (n m q : Z) :
  (inject_Z n - inject_Z m * inject_Z q == inject_Z (n - m * q))%Q.
Proof.
  unfold Z.sub. rewrite inject_Z_plus, inject_Z_opp, inject_Z_mult. ring.
Qed.

(** [hash] on a natural number is the residue modulo [2^31]. *)
Lemma hash_integer (z : Z) :
  (0 <= z)%Z ->
  exists h, RNG.hash (Num (inject_Z z)) = Num h
            /\ (h == inject_Z ((1103515245 * z + 12345) mod 2147483648))%Q.
Proof.
  intros Hz. unfold RNG.hash, RNG.a, RNG.c, RNG.m, JS.rem, JS.mul, JS.add,
    JS.lift2.
  change (Qeq_bool 2147483648 0) with false. cbv iota.
  eexists. split; [reflexivity|].
  set (x := (1103515245 * inject_Z z + 12345)%Q).
  change (2147483648%Q) with (inject_Z (Zpos 2147483648)).
  rewrite (Qtrunc_integer_div x 2147483648 eq_refl).
  assert (Hn : Qnum x = (1103515245 * z + 12345)%Z).
  { subst x. unfold Qplus, Qmult, inject_Z. cbn [Qnum Qden]. lia. }
  rewrite Hn.
  assert (Hx : (x == inject_Z (1103515245 * z + 12345))%Q).
  { subst x. unfold Qeq, Qplus, Qmult, inject_Z. cbn [Qnum Qden]. lia. }
  rewrite Hx, <- (Z.rem_mod_nonneg (1103515245 * z + 12345) 2147483648)
    by lia.
  rewrite (Z.rem_eq (1103515245 * z + 12345) 2147483648) by lia.
  apply inject_Z_sub_mul.
Qed.

Lemma scale_Num (h : Q) :
  RNG.scale (Num h) = Num (h / (2147483648 - 1))%Q.
Proof. reflexivity. Qed.

(** C9, the instances that fail: a seed whose hash is [2^31 - 1], which
    [scale] maps to 1, and the seed -1, whose hash is negative and is not
    the residue of [1103515245 * (-1) + 12345] modulo [2^31]. *)
Lemma C9_scale_outside_unit_interval :
  JS.eqv (RNG.hash (Num (2147471302 # 1103515245))) (Num 2147483647)
  /\ JS.eqv (RNG.scale (RNG.hash (Num (2147471302 # 1103515245)))) (Num 1)
  /\ (RNG.scale (RNG.hash (Num (2147471302 # 1103515245))) <? 1%Q) = false
  /\ RNG.hash (Num (-1)%Q) = Num (-1103502900)%Q
  /\ (0%Q <=? RNG.scale (RNG.hash (Num (-1)%Q))) = false
  /\ ((1103515245 * -1 + 12345) mod 2147483648 = 1043980748)%Z.
Proof. vm_compute. repeat split. Qed.

(** C9, as the code has it.  For a seed that is a natural number, small
    enough for [1103515245 * seed + 12345] to stay below [2^53] (where
    double precision is exact; the arithmetic here is exact anyway),
    [hash seed] is [(1103515245 * seed + 12345) mod 2^31]; and [scale]
    maps every integer from 0 to [2^31 - 1] into the closed interval from
    0 to 1: below 1 for all of them but [2^31 - 1], which it maps to 1. *)
Theorem C9_rng_natural_seeds :
  (forall z : Z,
      (0 <= z)%Z -> (1103515245 * z + 12345 < 2 ^ 53)%Z ->
      JS.eqv (RNG.hash (Num (inject_Z z)))
             (Num (inject_Z ((1103515245 * z + 12345) mod 2 ^ 31))))
  /\ (forall h : Z,
        (0 <= h < 2 ^ 31)%Z ->
        (0%Q <=? RNG.scale (Num (inject_Z h))) = true
        /\ (RNG.scale (Num (inject_Z h)) <=? 1%Q) = true
        /\ ((RNG.scale (Num (inject_Z h)) <? 1%Q) = true
            <-> h <> (2 ^ 31 - 1)%Z)).
Proof.
  change (2 ^ 31)%Z with 2147483648%Z. split.
  - intros z Hz _. destruct (hash_integer z Hz) as (h & -> & Hh). exact Hh.
  - intros h Hh. rewrite scale_Num.
    assert (Hd : (0 < 2147483648 - 1)%Q) by reflexivity.
    assert (H0 : (0 <= inject_Z h)%Q).
    { change 0%Q with (inject_Z 0). rewrite <- Zle_Qle. lia. }
    assert (H1 : (inject_Z h <= 2147483647)%Q).
    { change 2147483647%Q with (inject_Z 2147483647).
      rewrite <- Zle_Qle. lia. }
    split; [|split].
    + apply leb_Num. apply Qle_shift_div_l; [exact Hd | lra].
    + apply leb_Num. apply Qle_shift_div_r; [exact Hd | lra].
    + rewrite ltb_Num. split.
      * intros Hlt Ek. apply Qlt_not_le in Hlt. apply Hlt.
        apply Qle_shift_div_l; [exact Hd|]. rewrite Ek. discriminate.
      * intros Hne. apply Qlt_shift_div_r; [exact Hd|].
        change (1 * (2147483648 - 1))%Q with (inject_Z 2147483647).
        rewrite <- Zlt_Qlt. lia.
Qed.

Lemma C9_rng_natural_seeds_witness :
  (0 <= 60)%Z /\ (1103515245 * 60 + 12345 < 2 ^ 53)%Z
  /\ JS.eqv (RNG.hash (Num (inject_Z 60))) (Num (inject_Z 1786417605))
  /\ (0 <= 1786417605 < 2 ^ 31)%Z
  /\ (RNG.scale (Num (inject_Z 1786417605)) <? 1%Q) = true.
Proof.
  assert (Hz : (0 <= 60)%Z) by lia.
  assert (Hb : (1103515245 * 60 + 12345 < 2 ^ 53)%Z) by reflexivity.
  assert (Hh : (0 <= 1786417605 < 2 ^ 31)%Z) by (split; [lia | reflexivity]).
  split; [exact Hz|]. split; [exact Hb|].
  split; [apply (proj1 C9_rng_natural_seeds 60%Z Hz Hb)|].
  split; [exact Hh|].
  apply (proj2 C9_rng_natural_seeds 1786417605%Z Hh). discriminate.
Defined.

End RandomNumbers.

(** ** The score parser *)

Section ParserFacts.

Local Open Scope js_scope.

Variable Number : option string -> number.

Lemma split_nonempty (sep : ascii) (s : string) :
  exists c0 rest, split sep s = c0 :: rest.
Proof.
  induction s as [|c s (c0 & rest & IH)]; simpl; [eauto|].
  destruct (Ascii.eqb c sep); [eauto|]. rewrite IH. eauto.
Qed.

Lemma parseRow_total (i : nat) (row : string) :
  exists n, parseRow Number i row = inr n /\ rowNote Number i row n.
Proof.
  unfold parseRow, rowNote.
  destruct (split_nonempty "," row) as (c0 & rest & ->). simpl.
  eexists. split; [reflexivity|]. simpl. repeat split; try reflexivity.
  - intros E. exists c0. split; [reflexivity|]. now apply String.eqb_eq.
  - intros (c & E & Ht). injection E as <-. now apply String.eqb_eq.
Qed.

Lemma mapi_parseRow_total (rows : list string) : forall i,
  exists notes,
    mapi_result (parseRow Number) i rows = inr notes
    /\ Forall2 (fun row n => rowNote Number (oid n) row n) rows notes
    /\ map oid notes = seq i (List.length rows).
Proof.
  induction rows as [|row rows IH]; intros i; simpl.
  - exists []. repeat split. constructor.
  - destruct (parseRow_total i row) as (n & -> & Hn).
    destruct (IH (S i)) as (notes & -> & Hall & Hoid). simpl.
    exists (n :: notes). split; [reflexivity|]. split.
    + constructor; [|exact Hall].
      now replace (oid n) with i by (symmetry; apply Hn).
    + simpl. f_equal; [apply Hn | exact Hoid].
Qed.


Lemma parseNotes_oids (csv : string) :
  exists notes,
    parseNotes Number csv = inr notes
    /\ map oid notes = seq 0 (List.length (tl (split newline (trim csv)))).
Proof.
  unfold parseNotes.
  destruct (mapi_parseRow_total (tl (split newline (trim csv))) 0)
    as (notes & -> & _ & Hoid).
  now exists notes.
Qed.


End ParserFacts.


(** ** Along a game *)

Section Scenarios.

Local Open Scope js_scope.

(** The notes a score is parsed into are distinct objects. *)
Lemma parseNotes_distinct (Number : option string -> number) (csv : string)
    (notes : list NoteData) :
  parseNotes Number csv = inr notes ->
  NoDup (map oid notes)
  /\ NoDup (map oid (filter (fun n => user_played n) notes)).
Proof.
  intros E. destruct (parseNotes_oids Number csv)
    as (notes' & E' & Hoid).
  rewrite E in E'. injection E' as <-.
  assert (Hnd : NoDup (map oid notes)) by (rewrite Hoid; apply seq_NoDup).
  split; [exact Hnd | now apply NoDup_map_filter].
Qed.

(** In a game started from a parsed score no two circles ever hold the
    same note. *)
Lemma game_of_score_one_circle_per_note (Number : option string -> number)
    (csv : string) (args : GameArgs) (last : NoteData) (acts : list Action) :
  startGame Number csv = inr args -> LastNote args = Some last ->
  NoDup (map noteOf
             (circles (run (initialState (Notes args) (UserNotes args)
                                         (AutoNotes args) last) acts))).
Proof.
  unfold startGame. destruct (parseNotes Number csv) as [e|notes] eqn:E;
    simpl; [discriminate|].
  intros Ea _. injection Ea as <-. simpl.
  apply (CirclesInv_run (filter (fun n => user_played n) notes) acts).
  - apply (parseNotes_distinct Number csv notes E).
  - apply CirclesInv_init.
Qed.

Lemma played_at_kept_by_reducer (s : State) (a : Action) (n' : NoteData) :
  In n' (autoNotes (reducer s a)) ->
  exists n, In n (autoNotes s) /\ oid n = oid n'
            /\ forall t, played_at n = Some t -> played_at n' = Some t.
Proof.
  assert (Hsame : In n' (autoNotes s) ->
            exists n, In n (autoNotes s) /\ oid n = oid n'
                      /\ forall t, played_at n = Some t ->
                                   played_at n' = Some t) by eauto.
  unfold reducer.
  destruct a; try exact Hsame; destruct (paused s); simpl negb; cbv iota;
    try exact Hsame.
  simpl. unfold updatedNotes. intros Hin.
  apply in_map_iff in Hin as (n & <- & Hn). apply filter_In in Hn as [Hn _].
  exists n. split; [exact Hn|]. split.
  - unfold stampNote. destruct (played_at n); [reflexivity|].
    now destruct (_ && _).
  - apply stampNote_spec.
Qed.

(** X17.  Whatever the actions, a background note that is still in the
    list descends from a note that was in the list before, and has the
    [played_at] of that note if it had one: once stamped, a note keeps
    its stamp for as long as it stays, and no note enters the list. *)
Lemma played_at_kept_along_run (acts : list Action) : forall s n',
  In n' (autoNotes (run s acts)) ->
  exists n, In n (autoNotes s) /\ oid n = oid n'
            /\ forall t, played_at n = Some t -> played_at n' = Some t.
Proof.
  induction acts as [|a acts IH]; intros s n' Hin; [eauto|].
  destruct (IH (reducer s a) n' Hin) as (n1 & H1 & E1 & P1).
  destruct (played_at_kept_by_reducer s a n1 H1) as (n & Hn & E & P).
  exists n. split; [exact Hn|]. split; [congruence | auto].
Qed.

Lemma played_at_kept_along_run_witness :
  In (mkNoteData false (Some "violin"%string) 90%Q 62%Q 1.00%Q 1.50%Q
                 (Some (Num 1.000)) 1)
     (autoNotes (run demoDue [Tick; H; Esc; Tick; Esc; Tick]))
  /\ exists n, In n (autoNotes (run demoDue [Tick])) /\ oid n = 1
               /\ played_at n = Some (Num 1.000).
Proof.
  assert (Hin : In (mkNoteData false (Some "violin"%string) 90%Q 62%Q 1.00%Q
                               1.50%Q (Some (Num 1.000)) 1)
                   (autoNotes (run (run demoDue [Tick])
                                   [H; Esc; Tick; Esc; Tick]))).
  { vm_compute. left. reflexivity. }
  split; [exact Hin|].
  destruct (played_at_kept_along_run [H; Esc; Tick; Esc; Tick]
              (run demoDue [Tick]) _ Hin) as (n & Hn & Eo & Hp).
  exists n. split; [exact Hn|]. split; [exact Eo|].
  vm_compute in Hn. destruct Hn as [<- | []]. reflexivity.
Defined.

(** One user note of pitch 60 from 2.00 s to 2.50 s: at 2.00 s there is
    one circle, in the first column; the key of that column then scores
    10 and retires the circle; 0.5 s early it scores 5. *)
Example scenario_hit_on_time :
  let s := run demoStart (repeat Tick 550) in
  time s = Num 2.000
  /\ map cx (circles s) = ["20%"%string]
  /\ score (reducer s H) = Num 10
  /\ map rendered (circles (reducer s H)) = [false]
  /\ map played (circles (reducer s H)) = [true]
  /\ score (reducer (reducer s H) H) = Num 10.
Proof. vm_compute. repeat split. Qed.

Example scenario_hit_early :
  let s := run demoStart (repeat Tick 500) in
  time s = Num 1.500 /\ score (reducer s H) = Num 5.
Proof. vm_compute. repeat split. Qed.

(** The background note from 1.00 s to 1.50 s is stamped by the tick
    that leaves 1.00 s, and keeps the stamp. *)
Example scenario_background_note :
  map played_at (autoNotes (run demoStart (repeat Tick 450))) = [None]
  /\ map played_at (autoNotes (run demoStart (repeat Tick 451)))
     = [Some (Num 1.000)]
  /\ map played_at (autoNotes (run demoStart (repeat Tick 500)))
     = [Some (Num 1.000)].
Proof. vm_compute. repeat split. Qed.

(** The game has ended two ticks after the time reaches 2.50 s. *)
Example scenario_end :
  map (fun k => gameEnd (run demoStart (repeat Tick k))) [600; 601; 602]
  = [false; false; true].
Proof. vm_compute. reflexivity. Qed.

End Scenarios.

(** ** The clock *)

Section Clock.

Lemma run_app (s : State) (l1 l2 : list Action) :
  run s (l1 ++ l2) = run (run s l1) l2.
Proof. apply fold_left_app. Qed.

Lemma Qfloor_half (z : Z) (x : Q) :
  (x == inject_Z z + (1 # 2))%Q -> Qfloor x = z.
Proof.
  intros E. pose proof (Qfloor_le x) as H1. pose proof (Qlt_floor x) as H2.
  rewrite inject_Z_plus in H2. change (inject_Z 1) with 1%Q in H2.
  assert (A : (inject_Z (Qfloor x) < inject_Z (z + 1))%Q).
  { rewrite inject_Z_plus. change (inject_Z 1) with 1%Q. lra. }
  assert (B : (inject_Z (z - 1) < inject_Z (Qfloor x))%Q).
  { unfold Z.sub. rewrite inject_Z_plus, inject_Z_opp.
    change (inject_Z 1) with 1%Q. lra. }
  rewrite <- Zlt_Qlt in A, B. lia.
Qed.

Lemma Qdiv_mul_1000 (x : Q) : (x / 1000 * 1000 == x)%Q.
Proof. field. Qed.

(** On a time that is a whole number of milliseconds the rounding of
    [tick] changes nothing: the tick adds 10 ms. *)
Lemma tick_onGrid (s : State) (k : Z) :
  onGrid s k -> onGrid (tick s) (k + 10).
Proof.
  intros (t & Et & Hk). unfold onGrid. simpl time.
  rewrite (roundedTime_Num s t Et). eexists. split; [reflexivity|].
  rewrite (Qfloor_half (k + 10)); [apply Qdiv_mul_1000|].
  rewrite inject_Z_plus. change (inject_Z 10) with 10%Q. lra.
Qed.

Lemma paused_after (s : State) (a : Action) :
  paused (reducer s a) = match a with Esc => negb (paused s) | _ => paused s end.
Proof.
  unfold reducer. destruct a; destruct (paused s) eqn:E; simpl;
    rewrite ?E; auto.
Qed.

Lemma onGrid_eq (s : State) (k k' : Z) : onGrid s k -> k = k' -> onGrid s k'.
Proof. now intros Hk <-. Qed.

Lemma reducer_onGrid (s : State) (a : Action) (k : Z) :
  onGrid s k ->
  onGrid (reducer s a) (k + 10 * Z.of_nat (ticksTaken (paused s) [a])).
Proof.
  intros Hk. unfold reducer.
  destruct a; simpl ticksTaken; destruct (paused s); simpl negb; cbv iota;
    try (apply (onGrid_eq s k); [exact Hk | lia]).
  apply (onGrid_eq (tick s) (k + 10)); [now apply tick_onGrid | lia].
Qed.

Lemma ticksTaken_cons (p : bool) (a : Action) (acts : list Action) :
  ticksTaken p (a :: acts)
  = ticksTaken p [a]
    + ticksTaken (match a with Esc => negb p | _ => p end) acts.
Proof. destruct a, p; reflexivity. Qed.

Lemma run_onGrid (acts : list Action) : forall s k,
  onGrid s k ->
  onGrid (run s acts) (k + 10 * Z.of_nat (ticksTaken (paused s) acts)).
Proof.
  induction acts as [|a acts IH]; intros s k Hk.
  - apply (onGrid_eq s k); [exact Hk | simpl; lia].
  - simpl run. apply (reducer_onGrid s a) in Hk. apply IH in Hk.
    rewrite paused_after in Hk. eapply onGrid_eq; [exact Hk|].
    rewrite (ticksTaken_cons (paused s) a acts). lia.
Qed.

(** X1.  From a state whose time is a whole number of milliseconds, a
    sequence of actions moves the time forward by exactly 0.01 s for
    every tick that arrives while the game is not paused, and by nothing
    else. *)
Theorem clock_counts_ticks (s : State) (acts : list Action) (k : Z) (t : Q) :
  time s = Num t -> (t * 1000 == inject_Z k)%Q ->
  exists t',
    time (run s acts) = Num t'
    /\ (t' == t + inject_Z (Z.of_nat (ticksTaken (paused s) acts)) * 0.01)%Q.
Proof.
  intros Et Hk.
  destruct (run_onGrid acts s k (ex_intro _ t (conj Et Hk)))
    as (t' & Et' & Hk').
  exists t'. split; [exact Et'|].
  rewrite inject_Z_plus, inject_Z_mult in Hk'.
  change (inject_Z 10) with 10%Q in Hk'. lra.
Qed.

Lemma clock_counts_ticks_witness :
  time demoStart = Num (-3.5)%Q
  /\ ((-3.5) * 1000 == inject_Z (-3500))%Q
  /\ exists t',
       time (run demoStart [Tick; Esc; Tick; H; Esc; Tick]) = Num t'
       /\ (t' == -3.48)%Q.
Proof.
  assert (Et : time demoStart = Num (-3.5)%Q) by reflexivity.
  assert (Hk : ((-3.5) * 1000 == inject_Z (-3500))%Q) by reflexivity.
  split; [exact Et|]. split; [exact Hk|].
  destruct (clock_counts_ticks demoStart [Tick; Esc; Tick; H; Esc; Tick]
              (-3500) (-3.5)%Q Et Hk) as (t' & Et' & Ht').
  exists t'. split; [exact Et'|]. rewrite Ht'. reflexivity.
Defined.

End Clock.

(** ** Where the circles are *)

Section Positions.

Local Open Scope js_scope.














End Positions.

(** ** The score *)

Section Score.

Local Open Scope js_scope.

Lemma filter_length_sum {A : Type} (p q r : A -> bool) (l : list A) :
  (forall x, In x l ->
     (Nat.b2n (p x) + Nat.b2n (q x) <= Nat.b2n (r x))%nat) ->
  (List.length (filter p l) + List.length (filter q l)
   <= List.length (filter r l))%nat.
Proof.
  induction l as [|x l IH]; intros Hpt; simpl; [lia|].
  assert (Hx := Hpt x (or_introl eq_refl)).
  assert (Hl : forall y, In y l ->
            (Nat.b2n (p y) + Nat.b2n (q y) <= Nat.b2n (r y))%nat).
  { intros y Hy. apply Hpt. now right. }
  specialize (IH Hl).
  destruct (p x), (q x), (r x); simpl in *; lia.
Qed.

Lemma filter_map_length_le {A B : Type} (p : B -> bool) (q : A -> bool)
    (f : A -> B) (l : list A) :
  (forall x, p (f x) = true -> q x = true) ->
  (List.length (filter p (map f l)) <= List.length (filter q l))%nat.
Proof.
  intros Hpq. induction l as [|x l IH]; simpl; [lia|].
  destruct (p (f x)) eqn:Ep.
  - rewrite (Hpq x Ep). simpl. lia.
  - destruct (q x); simpl; lia.
Qed.

Lemma filter_filter_length_le {A : Type} (p q : A -> bool) (l : list A) :
  (List.length (filter p (filter q l)) <= List.length (filter p l))%nat.
Proof.
  induction l as [|x l IH]; simpl; [lia|].
  destruct (q x), (p x) eqn:Ep; simpl; rewrite ?Ep; simpl; lia.
Qed.

Lemma live_moveCircle (c : Body) : live (moveCircle c) = true -> live c = true.
Proof.
  unfold moveCircle, live. destruct (_ >=? _); simpl; [discriminate | auto].
Qed.

(** The user notes still to come before a tick are those still to come
    after it and those the tick makes circles for. *)
Lemma upcoming_tick (s : State) :
  is_num (time s) ->
  (List.length (filter (upcoming (tick s)) (userNotes s))
   + List.length (newNotes s)
   <= List.length (filter (upcoming s) (userNotes s)))%nat.
Proof.
  intros [t Et]%is_num_inv. destruct (roundedTime_gt s t Et) as (t' & Et' & Hlt).
  unfold newNotes. apply filter_length_sum. intros n _.
  unfold upcoming. simpl time. rewrite Et, Et'. unfold JS.geb.
  destruct (start n) as [st|]; [|simpl; lia].
  change (Num t' + Time.OFFSET <=? Num st) with (Qle_bool (t' + 3.5) st).
  change (Num t + Time.OFFSET <=? Num st) with (Qle_bool (t + 3.5) st).
  change (Num st <? Num t' + Time.OFFSET) with (JS.Qltb st (t' + 3.5)).
  destruct (Qle_bool (t' + 3.5) st) eqn:Hup.
  - apply Qle_bool_iff in Hup.
    rewrite (proj2 (Qle_bool_iff (t + 3.5) st)) by lra.
    rewrite (proj2 (Qltb_nlt st (t' + 3.5))) by exact Hup. simpl. lia.
  - destruct (Qle_bool (t + 3.5) st), (JS.Qltb st (t' + 3.5)); simpl; lia.
Qed.

Lemma live_tick (s : State) :
  (List.length (filter live (circles (tick s)))
   <= List.length (filter live (circles s)) + List.length (newNotes s))%nat.
Proof.
  simpl circles. unfold tick_updatedCircles, newCircles.
  rewrite filter_app, length_app.
  pose proof (filter_map_length_le live live moveCircle
                (filter rendered (circles s)) live_moveCircle) as H1.
  pose proof (filter_filter_length_le live rendered (circles s)) as H3.
  assert (H4 : (List.length (filter live (map newCircle (newNotes s)))
                <= List.length (newNotes s))%nat).
  { rewrite <- (length_map newCircle (newNotes s)). apply filter_length_le. }
  lia.
Qed.

(** A key that selects a circle leaves one circle less to hit. *)
Lemma live_keyPress (s : State) (a : Action) (j : nat) (m : Body) :
  prioritizedCircle s a = Some (j, m) ->
  S (List.length (filter live (key_updatedCircles s a)))
  = List.length (filter live (circles s)).
Proof.
  intros Hsel. pose proof (prioritizedCircle_in s a _ Hsel) as Hin.
  apply in_eligibleCircles in Hin as [Hm He].
  apply eligible_inv in He as (_ & _ & Hr & Hpl).
  destruct (nth_error_split (circles s) j Hm) as (l1 & l2 & Ecs & Hlen).
  assert (E : key_updatedCircles s a = l1 ++ hitCircle m :: l2).
  { apply nth_error_ext. intros i. destruct (Nat.eq_dec i j) as [-> | Hne].
    - rewrite (key_updatedCircles_hit s a j m Hsel).
      rewrite nth_error_app2 by lia. rewrite Hlen, Nat.sub_diag. reflexivity.
    - rewrite (key_updatedCircles_other s a j m i Hsel Hne), Ecs.
      destruct (Nat.lt_ge_cases i (List.length l1)) as [Hlt | Hge].
      + now rewrite !nth_error_app1 by exact Hlt.
      + rewrite !nth_error_app2 by exact Hge.
        destruct (i - List.length l1)%nat as [|d] eqn:Ed;
          [lia | reflexivity]. }
  rewrite E, Ecs, !filter_app, !length_app. simpl.
  assert (Hl : live m = true) by (unfold live; now rewrite Hr, Hpl).
  rewrite Hl. simpl. lia.
Qed.

Lemma ScoreInv_init (Notes UserNotes AutoNotes : list NoteData)
    (LastNote : NoteData) :
  ScoreInv (initialState Notes UserNotes AutoNotes LastNote).
Proof.
  split; [exact I|]. exists 0%Z. split; [exists 0%Q; split; reflexivity|].
  split; [lia|]. split; [apply Z.divide_0_r|].
  simpl circles. simpl userNotes. simpl filter at 1. simpl List.length at 1.
  pose proof (filter_length_le
                (upcoming (initialState Notes UserNotes AutoNotes LastNote))
                UserNotes). lia.
Qed.

Lemma ScoreInv_tick (s : State) : ScoreInv s -> ScoreInv (tick s).
Proof.
  intros (Ht & points & Hq & H0 & H5 & Hsum).
  pose proof (upcoming_tick s Ht) as Hup. pose proof (live_tick s) as Hlive.
  split.
  - apply is_num_inv in Ht as [t Et].
    destruct (roundedTime_gt s t Et) as (t' & Et' & _). simpl. now rewrite Et'.
  - exists points. split; [exact Hq|]. split; [exact H0|].
    split; [exact H5|]. simpl userNotes. lia.
Qed.

Lemma ScoreInv_keyPress (s : State) (a : Action) :
  ScoreInv s -> ScoreInv (keyPress s a).
Proof.
  intros (Ht & points & (q & Eq & Hq) & H0 & H5 & Hsum).
  split; [exact Ht|]. simpl score. simpl circles. simpl userNotes.
  rewrite Eq. unfold addedPoints.
  assert (Hup : filter (upcoming (keyPress s a)) (userNotes s)
                = filter (upcoming s) (userNotes s)) by reflexivity.
  rewrite Hup. destruct (prioritizedCircle s a) as [[j m]|] eqn:Hsel.
  - pose proof (live_keyPress s a j m Hsel) as Hlive.
    destruct (_ <? Time.FORGIVING_MARGIN).
    + exists (points + 10)%Z. split.
      * eexists. split; [reflexivity|]. rewrite inject_Z_plus, Hq.
        reflexivity.
      * split; [lia|]. split; [|lia].
        apply Z.divide_add_r; [exact H5 | now exists 2%Z].
    + exists (points + 5)%Z. split.
      * eexists. split; [reflexivity|]. rewrite inject_Z_plus, Hq.
        reflexivity.
      * split; [lia|]. split; [|lia].
        apply Z.divide_add_r; [exact H5 | now exists 1%Z].
  - rewrite (key_updatedCircles_None s a Hsel). exists points. split.
    + eexists. split; [reflexivity|]. rewrite Hq. ring.
    + auto.
Qed.

Lemma ScoreInv_reducer (s : State) (a : Action) :
  ScoreInv s -> ScoreInv (reducer s a).
Proof.
  intros HI. unfold reducer.
  destruct a; try exact HI; destruct (paused s); simpl negb; cbv iota;
    try exact HI; try (now apply ScoreInv_tick); now apply ScoreInv_keyPress.
Qed.

Lemma ScoreInv_run (acts : list Action) : forall s,
  ScoreInv s -> ScoreInv (run s acts).
Proof.
  induction acts as [|a acts IH]; intros s HI; [exact HI|].
  apply IH, ScoreInv_reducer, HI.
Qed.

Lemma userNotes_run (acts : list Action) : forall s,
  userNotes (run s acts) = userNotes s /\ lastNote (run s acts) = lastNote s.
Proof.
  induction acts as [|a acts IH]; intros s; [auto|].
  simpl run. destruct (IH (reducer s a)) as [-> ->].
  unfold reducer. destruct a, (paused s); auto.
Qed.

(** X4.  In a game started by [main], whatever the actions, the score is
    a whole number of points, a multiple of 5, from 0 to 10 times the
    number of user notes: no note is paid twice. *)
Theorem score_is_bounded
    (Notes UserNotes AutoNotes : list NoteData) (LastNote : NoteData)
    (acts : list Action) :
  exists points : Z,
    JS.eqv (score (run (initialState Notes UserNotes AutoNotes LastNote)
                       acts))
           (Num (inject_Z points))
    /\ (0 <= points <= 10 * Z.of_nat (List.length UserNotes))%Z
    /\ (5 | points)%Z.
Proof.
  destruct (ScoreInv_run acts _
              (ScoreInv_init Notes UserNotes AutoNotes LastNote))
    as (_ & points & (q & Eq & Hq) & H0 & H5 & Hsum).
  rewrite (proj1 (userNotes_run acts _)) in Hsum. simpl userNotes in Hsum.
  exists points. rewrite Eq. split; [exact Hq|]. split; [lia | exact H5].
Qed.

End Score.

(** ** Pausing and ending *)

Section PauseAndEnd.

Local Open Scope js_scope.

Lemma reducer_paused (s : State) (a : Action) :
  paused s = true -> a <> Esc -> reducer s a = s.
Proof.
  intros Hp Ha. unfold reducer. rewrite Hp. destruct a; try reflexivity.
  now elim Ha.
Qed.

Lemma run_paused (acts : list Action) (s : State) :
  paused s = true -> Forall (fun a => a <> Esc) acts -> run s acts = s.
Proof.
  intros Hp Hall. induction Hall as [|a acts Ha _ IH]; [reflexivity|].
  simpl. now rewrite (reducer_paused s a Hp Ha).
Qed.

Lemma togglePause_twice (s : State) : togglePause (togglePause s) = s.
Proof. destruct s. unfold togglePause. simpl. now rewrite negb_involutive. Qed.

(** X5.  Pausing a running game, any ticks and lane keys, and resuming
    leave the state exactly as it was before the pause. *)
Theorem pause_resume_restores (s : State) (acts : list Action) :
  paused s = false -> Forall (fun a => a <> Esc) acts ->
  run s (Esc :: acts ++ [Esc]) = s.
Proof.
  intros Hp Hall. simpl run. change (reducer s Esc) with (togglePause s).
  rewrite run_app, (run_paused acts (togglePause s)); auto.
  - apply togglePause_twice.
  - simpl. now rewrite Hp.
Qed.

Lemma pause_resume_restores_witness :
  paused demoState = false
  /\ Forall (fun a => a <> Esc) [Tick; H; Tick; J]
  /\ run demoState [Esc; Tick; H; Tick; J; Esc] = demoState.
Proof.
  assert (Hp : paused demoState = false) by reflexivity.
  assert (Hall : Forall (fun a => a <> Esc) [Tick; H; Tick; J]).
  { repeat constructor; discriminate. }
  split; [exact Hp|]. split; [exact Hall|].
  apply (pause_resume_restores demoState [Tick; H; Tick; J] Hp Hall).
Defined.

Lemma EndInv_reducer (e : Q) (s : State) (n : nat) (a : Action) :
  (0 <= e)%Q -> EndInv e s n ->
  EndInv e (reducer s a) (n + ticksTaken (paused s) [a]).
Proof.
  intros He (EL & Hk & Hend).
  assert (Hsame : EndInv e s (n + 0)).
  { rewrite Nat.add_0_r. now split. }
  unfold reducer.
  destruct a; simpl ticksTaken; destruct (paused s); simpl negb; cbv iota;
    try exact Hsame;
    try (rewrite Nat.add_0_r; split; [exact EL | split; [exact Hk | exact Hend]]).
  split; [exact EL|]. split.
  - apply (onGrid_eq (tick s) (-3500 + 10 * Z.of_nat n + 10));
      [now apply tick_onGrid | lia].
  - simpl gameEnd. rewrite didGameEnd_true, EL. destruct Hk as (t & Et & Hk).
    rewrite Et. unfold JS.geb, JS.gtb. rewrite leb_Num, ltb_Num.
    replace (Z.of_nat (n + 1) - 1)%Z with (Z.of_nat n) by lia.
    rewrite <- Hk. split.
    + intros [_ Hlt]. split; [lia | lra].
    + intros [_ Hlt]. split; [exact He | lra].
Qed.

Lemma EndInv_run (e : Q) (acts : list Action) : forall s n,
  (0 <= e)%Q -> EndInv e s n ->
  EndInv e (run s acts) (n + ticksTaken (paused s) acts).
Proof.
  induction acts as [|a acts IH]; intros s n He HI.
  - simpl. now rewrite Nat.add_0_r.
  - simpl run. apply (EndInv_reducer e s n a He) in HI. apply (IH _ _ He) in HI.
    rewrite paused_after in HI. rewrite (ticksTaken_cons (paused s) a acts).
    now rewrite Nat.add_assoc.
Qed.

(** X6.  In a game started by [main] whose last note ends at [e >= 0]
    seconds, [gameEnd] is true exactly when at least one tick was let
    through and the time before the last of them, [-3.5 + (n - 1) / 100]
    seconds for [n] ticks, was past [e]: the game ends with the first
    tick that finds the time already past [e], one tick after the time
    has passed it, however the ticks are mixed with keys and pauses. *)
Theorem game_ends_after
    (Notes UserNotes AutoNotes : list NoteData) (LastNote : NoteData)
    (e : Q) (acts : list Action) :
  end_ LastNote = Num e -> (0 <= e)%Q ->
  (gameEnd (run (initialState Notes UserNotes AutoNotes LastNote) acts) = true
   <-> (1 <= ticksTaken false acts)%nat
       /\ (e < -3.5 + (inject_Z (Z.of_nat (ticksTaken false acts)) - 1) * 0.01)%Q).
Proof.
  intros EL He.
  assert (H0 : EndInv e (initialState Notes UserNotes AutoNotes LastNote) 0).
  { split; [exact EL|]. split.
    - exists (-3.5)%Q. split; reflexivity.
    - simpl. split; [discriminate | intros [Hn _]; lia]. }
  destruct (EndInv_run e acts _ 0 He H0) as (_ & _ & Hend).
  simpl paused in Hend. simpl plus in Hend. rewrite Hend.
  unfold Z.sub.
  rewrite !inject_Z_plus, inject_Z_mult, inject_Z_plus, inject_Z_opp.
  change (inject_Z (-3500)) with (-3500)%Q.
  change (inject_Z 10) with 10%Q. change (inject_Z 1) with 1%Q.
  split; intros [Hn Hlt]; (split; [exact Hn | lra]).
Qed.

Lemma game_ends_after_witness :
  end_ demoNote = Num 2.50 /\ (0 <= 2.50)%Q
  /\ gameEnd (run demoStart (repeat Tick 601 ++ [H; Esc; Tick; Esc; Tick]))
     = true.
Proof.
  assert (EL : end_ demoNote = Num 2.50) by reflexivity.
  assert (He : (0 <= 2.50)%Q) by discriminate.
  split; [exact EL|]. split; [exact He|].
  apply (proj2 (game_ends_after [demoNote; demoAuto] [demoNote] [demoAuto]
                  demoNote 2.50
                  (repeat Tick 601 ++ [H; Esc; Tick; Esc; Tick]) EL He)).
  split.
  - apply Nat.leb_le. vm_compute. reflexivity.
  - vm_compute. reflexivity.
Defined.

Lemma gameEnd_stays_false (LastNote : NoteData) (acts : list Action) :
  (end_ LastNote >=? 0%Q) = false ->
  forall s, gameEnd s = false -> lastNote s = LastNote ->
            gameEnd (run s acts) = false.
Proof.
  intros Hneg. induction acts as [|a acts IH]; intros s Hg HL; [exact Hg|].
  simpl run. apply IH.
  - unfold reducer. destruct a; try exact Hg; destruct (paused s);
      simpl negb; cbv iota; try exact Hg.
    simpl. unfold didGameEnd. now rewrite HL, Hneg.
  - unfold reducer. destruct a, (paused s); exact HL.
Qed.

(** X7.  When the end of the last note is negative or not a number (as
    for a score whose first row has no numeric end), no sequence of
    actions ends the game. *)
Theorem game_never_ends
    (Notes UserNotes AutoNotes : list NoteData) (LastNote : NoteData)
    (acts : list Action) :
  (end_ LastNote >=? 0%Q) = false ->
  gameEnd (run (initialState Notes UserNotes AutoNotes LastNote) acts) = false.
Proof.
  intros Hneg. now apply (gameEnd_stays_false LastNote acts).
Qed.

Lemma game_never_ends_witness :
  (end_ (mkNoteData true None NaN NaN NaN NaN None 0) >=? 0%Q) = false
  /\ gameEnd (run (initialState [] [] []
                     (mkNoteData true None NaN NaN NaN NaN None 0))
                  (repeat Tick 1000)) = false.
Proof.
  assert (Hneg : (end_ (mkNoteData true None NaN NaN NaN NaN None 0) >=? 0%Q)
                 = false) by reflexivity.
  split; [exact Hneg|].
  apply (game_never_ends [] [] [] _ (repeat Tick 1000) Hneg).
Defined.

End PauseAndEnd.

(** ** What is played *)

Section Sounds.

Local Open Scope js_scope.

Lemma Qltb_comp (p p' q q' : Q) :
  (p == p')%Q -> (q == q')%Q -> JS.Qltb p q = JS.Qltb p' q'.
Proof.
  intros Hp Hq. destruct (JS.Qltb p' q') eqn:E.
  - apply Qltb_lt. apply Qltb_lt in E. now rewrite Hp, Hq.
  - apply Qltb_nlt. apply Qltb_nlt in E. now rewrite Hp, Hq.
Qed.

(** At a time that is not negative [playNote] compares the start of the
    note with the time itself. *)
Lemma playNote_at (n : NoteData) (st t : Q) :
  start n = Num st -> (0 <= t)%Q -> played_at n = None ->
  playNote n (Num t)
  = if JS.Qltb 0.30 (Qabs (st - t))
    then [mkTrigger n (RNG.scale (RNG.hash (start n)) * 0.5%Q)
                    (RNG.scale (RNG.hash (pitch n)) * 100%Q)]
    else [mkTrigger n ((end_ n - start n) * 1000%Q) (pitch n)].
Proof.
  intros Est Ht Hp. unfold playNote, notePlayHelper. rewrite Hp, Est.
  change (JS.abs (Num st - JS.abs (Num t)) >? Time.FORGIVING_MARGIN)
    with (JS.Qltb 0.30 (Qabs (st - Qabs t))).
  rewrite (Qltb_comp 0.30 0.30 (Qabs (st - Qabs t)) (Qabs (st - t)));
    [reflexivity | reflexivity |].
  now rewrite (Qabs_pos t Ht).
Qed.



(** Only notes without [played_at] are played. *)
Lemma playNote_note (n : NoteData) (t : number) (g : Trigger) :
  In g (playNote n t) -> trig_note g = n /\ played_at n = None.
Proof.
  unfold playNote, notePlayHelper. destruct (played_at n).
  - destruct (JS.gtb _ _); intros Hg; destruct Hg.
  - destruct (JS.gtb _ _); intros [<- | Hg]; auto; destruct Hg.
Qed.

Lemma stampNote_oid (s : State) (n : NoteData) : oid (stampNote s n) = oid n.
Proof.
  unfold stampNote. destruct (played_at n); [reflexivity|].
  now destruct (_ && _).
Qed.

(** X9.  A background note that is in the list unplayed, not yet over,
    and that starts at the time of the state (a whole number of
    milliseconds, not negative) is played by the subscriber in this state
    with its own pitch and length; the next tick stamps it with this
    time, and the state after that tick does not play it again. *)
Theorem background_note_is_played_once (s : State) (n : NoteData)
    (t st : Q) (k : Z) :
  time s = Num t -> (0 <= t)%Q -> (t * 1000 == inject_Z k)%Q ->
  In n (autoNotes s) -> played_at n = None ->
  start n = Num st -> (st == t)%Q -> (end_ n >? time s) = true ->
  In (mkTrigger n ((end_ n - start n) * 1000%Q) (pitch n))
     (backgroundSounds s)
  /\ In (mkNoteData (user_played n) (instrument n) (velocity n) (pitch n)
                    (start n) (end_ n) (Some (time s)) (oid n))
        (autoNotes (tick s))
  /\ (NoDup (map oid (autoNotes s)) ->
      forall g, In g (backgroundSounds (tick s)) ->
                oid (trig_note g) <> oid n).
Proof.
  intros Et Ht Hk Hn Hpl Est Hst Hend.
  destruct (roundedTime_gt s t Et) as (t' & Et' & Hlt).
  assert (Hstamp : stampNote s n
                   = mkNoteData (user_played n) (instrument n) (velocity n)
                                (pitch n) (start n) (end_ n)
                                (Some (time s)) (oid n)).
  { apply stampNote_spec. split; [exact Hpl|]. simpl time.
    rewrite Et, Et', Est. split; [apply leb_Num | apply ltb_Num]; lra. }
  split; [|split].
  - unfold backgroundSounds. apply in_flat_map. exists n. split.
    + apply filter_In. split; [exact Hn|]. rewrite Est, Et.
      change (JS.round (Num st * 1000%Q) / 1000%Q - Num t === 0%Q)
        with (Qeq_bool
                (inject_Z (Qfloor (st * 1000 + (1 # 2))) / 1000 - t) 0).
      apply Qeq_bool_iff. rewrite (Qfloor_half k) by lra.
      rewrite <- Hk. field.
    + rewrite Et, (playNote_at n st t Est Ht Hpl).
      rewrite (proj2 (Qltb_nlt 0.30 (Qabs (st - t)))); [now left|].
      apply Qabs_Qle_condition. split; lra.
  - simpl autoNotes. unfold updatedNotes. rewrite <- Hstamp.
    apply in_map. apply filter_In. now split.
  - intros Hnd g Hg Hoid. unfold backgroundSounds in Hg.
    apply in_flat_map in Hg as (n' & Hn' & Hg).
    apply filter_In in Hn' as [Hn' _]. simpl autoNotes in Hn'.
    unfold updatedNotes in Hn'. apply in_map_iff in Hn' as (n0 & <- & Hn0).
    apply filter_In in Hn0 as [Hn0 _].
    apply playNote_note in Hg as [Eg Hp0].
    rewrite Eg, stampNote_oid in Hoid.
    assert (E0 : n0 = n) by (apply (NoDup_map_inj_in oid (autoNotes s)); auto).
    subst n0. rewrite Hstamp in Hp0. discriminate Hp0.
Qed.

Lemma background_note_is_played_once_witness :
  time demoDue = Num 1.000 /\ (0 <= 1.000)%Q
  /\ (1.000 * 1000 == inject_Z 1000)%Q
  /\ In demoAuto (autoNotes demoDue) /\ played_at demoAuto = None
  /\ start demoAuto = Num 1.00 /\ (1.00 == 1.000)%Q
  /\ (end_ demoAuto >? time demoDue) = true
  /\ In (mkTrigger demoAuto ((end_ demoAuto - start demoAuto) * 1000%Q)
                   (pitch demoAuto))
        (backgroundSounds demoDue).
Proof.
  assert (Et : time demoDue = Num 1.000) by reflexivity.
  assert (Ht : (0 <= 1.000)%Q) by discriminate.
  assert (Hk : (1.000 * 1000 == inject_Z 1000)%Q) by reflexivity.
  assert (Hn : In demoAuto (autoNotes demoDue)) by (left; reflexivity).
  assert (Hpl : played_at demoAuto = None) by reflexivity.
  assert (Est : start demoAuto = Num 1.00) by reflexivity.
  assert (Hst : (1.00 == 1.000)%Q) by reflexivity.
  assert (Hend : (end_ demoAuto >? time demoDue) = true) by reflexivity.
  repeat (split; [assumption|]).
  apply (background_note_is_played_once demoDue demoAuto 1.000 1.00 1000
           Et Ht Hk Hn Hpl Est Hst Hend).
Defined.

End Sounds.

(** ** The range of the generator *)

Section RandomRange.

Local Open Scope js_scope.

Lemma Qtrunc_floor (y : Q) : (0 <= y)%Q -> JS.Qtrunc y = Qfloor y.
Proof.
  destruct y as [n d]. unfold Qle. simpl. intros Hn.
  unfold JS.Qtrunc. simpl. apply Z.quot_div_nonneg; lia.
Qed.

(** The remainder of a number that is not negative by [2^31]. *)
Lemma rem_range (x : Q) :
  (0 <= x)%Q ->
  exists h, Num x %% RNG.m = Num h /\ (0 <= h)%Q /\ (h < 2147483648)%Q.
Proof.
  intros Hx. unfold JS.rem, RNG.m.
  change (Qeq_bool 2147483648 0) with false. cbv iota.
  eexists. split; [reflexivity|].
  assert (Hy : (0 <= x / 2147483648)%Q).
  { apply Qle_shift_div_l; [reflexivity | lra]. }
  rewrite (Qtrunc_floor _ Hy).
  pose proof (Qfloor_le (x / 2147483648)) as H1.
  pose proof (Qlt_floor (x / 2147483648)) as H2.
  rewrite inject_Z_plus in H2. change (inject_Z 1) with 1%Q in H2.
  assert (E : (x / 2147483648 * 2147483648 == x)%Q) by field.
  set (y := (x / 2147483648)%Q) in *.
  set (f := inject_Z (Qfloor y)) in *. split; lra.
Qed.

(** X10.  For a seed that is not negative, whole or not, [hash] lies
    from 0 up to but not including [2^31], and [scale] of it from 0 up to
    but not including [2^31 / (2^31 - 1)]: the length that [playNote]
    makes up from a start that is not negative is below 0.5000000003 ms
    and the pitch it makes up from a pitch that is not negative is below
    100.00000005. *)
Theorem made_up_sound_range (seed : Q) :
  (0 <= seed)%Q ->
  exists h u,
    RNG.hash (Num seed) = Num h /\ (0 <= h)%Q /\ (h < 2147483648)%Q
    /\ RNG.scale (RNG.hash (Num seed)) = Num u
    /\ (0 <= u)%Q /\ (u * 2147483647 < 2147483648)%Q
    /\ (RNG.scale (RNG.hash (Num seed)) * 0.5%Q <? 0.5000000003%Q) = true
    /\ (RNG.scale (RNG.hash (Num seed)) * 100%Q <? 100.00000005%Q) = true.
Proof.
  intros Hs. unfold RNG.hash.
  change (RNG.a * Num seed + RNG.c) with (Num (1103515245 * seed + 12345)).
  destruct (rem_range (1103515245 * seed + 12345)) as (h & -> & H0 & H1);
    [lra|].
  exists h, (h / (2147483648 - 1))%Q.
  assert (Hd : (0 < 2147483648 - 1)%Q) by reflexivity.
  assert (E : (h / (2147483648 - 1) * 2147483647 == h)%Q) by field.
  set (u := (h / (2147483648 - 1))%Q) in *.
  change (RNG.scale (Num h)) with (Num u).
  change (Num u * 0.5%Q) with (Num (u * 0.5)).
  change (Num u * 100%Q) with (Num (u * 100)).
  rewrite !ltb_Num. repeat split; auto; lra.
Qed.

Lemma made_up_sound_range_witness :
  (0 <= 2.00)%Q
  /\ (RNG.scale (RNG.hash (Num 2.00)) * 0.5%Q <? 0.5000000003%Q) = true.
Proof.
  assert (Hs : (0 <= 2.00)%Q) by discriminate.
  split; [exact Hs|].
  destruct (made_up_sound_range 2.00 Hs)
    as (h & u & _ & _ & _ & _ & _ & _ & Hlen & _).
  exact Hlen.
Defined.

End RandomRange.

(** ** The overlays *)

Section Overlays.

Local Open Scope js_scope.

Lemma gameEnd_reducer_cases (s : State) (a : Action) :
  gameEnd (reducer s a) = gameEnd s
  \/ (a = Tick /\ paused s = false /\ reducer s a = tick s).
Proof.
  unfold reducer. destruct a; auto; destruct (paused s); simpl; auto.
Qed.

Lemma overlays_step (s : State) (a : Action) (v : bool * bool) :
  fst v = gameEnd s ->
  snd v = paused s && negb (gameEnd s) ->
  (gameEnd s = true -> Latched s) ->
  fst (overlays (reducer s a) v) = gameEnd (reducer s a)
  /\ snd (overlays (reducer s a) v)
     = paused (reducer s a) && negb (gameEnd (reducer s a))
  /\ (gameEnd (reducer s a) = true -> Latched (reducer s a)).
Proof.
  intros Hgo Hgp HL. unfold overlays.
  destruct (gameEnd (reducer s a)) eqn:Hend'; simpl.
  - split; [reflexivity|]. rewrite andb_false_r.
    destruct (gameEnd s) eqn:Hend.
    + split; [now rewrite Hgp, andb_false_r|].
      intros _. now apply Latched_reducer, HL.
    + destruct (gameEnd_reducer_cases s a) as [E | (-> & Hp & E)];
        [congruence|].
      split; [now rewrite Hgp, Hp|]. intros _. rewrite E in *.
      split; [exact Hend'|]. simpl in Hend'.
      apply didGameEnd_true in Hend' as [He Ht].
      split; [exact He | now apply tick_time_gtb].
  - split; [reflexivity|]. split; [now rewrite andb_true_r | discriminate].
Qed.

Lemma overlays_run (acts : list Action) : forall s v,
  fst v = gameEnd s ->
  snd v = paused s && negb (gameEnd s) ->
  (gameEnd s = true -> Latched s) ->
  overlaysAfter s v acts
  = (gameEnd (run s acts), paused (run s acts) && negb (gameEnd (run s acts))).
Proof.
  induction acts as [|a acts IH]; intros s v Hgo Hgp HL.
  - change (v = (gameEnd s, paused s && negb (gameEnd s))).
    rewrite <- Hgp, <- Hgo. now destruct v.
  - change (overlaysAfter (reducer s a) (overlays (reducer s a) v) acts
            = (gameEnd (run (reducer s a) acts),
               paused (run (reducer s a) acts)
               && negb (gameEnd (run (reducer s a) acts)))).
    destruct (overlays_step s a v Hgo Hgp HL) as (H1 & H2 & H3).
    now apply IH.
Qed.

(** X11.  In a game started by [main], once the subscriber has seen a
    state, and whatever the two overlays showed before, the game-over
    overlay is visible exactly when the game has ended and the paused
    overlay exactly when the game is paused and has not ended: a pause
    after the end of the game shows nothing, though it stops the
    ticks. *)
Theorem overlays_show
    (Notes UserNotes AutoNotes : list NoteData) (LastNote : NoteData)
    (visible : bool * bool) (a : Action) (acts : list Action) :
  overlaysAfter (initialState Notes UserNotes AutoNotes LastNote) visible
                (a :: acts)
  = (gameEnd (run (initialState Notes UserNotes AutoNotes LastNote)
                  (a :: acts)),
     paused (run (initialState Notes UserNotes AutoNotes LastNote)
                 (a :: acts))
     && negb (gameEnd (run (initialState Notes UserNotes AutoNotes LastNote)
                           (a :: acts)))).
Proof.
  set (s0 := initialState Notes UserNotes AutoNotes LastNote).
  simpl overlaysAfter. simpl run.
  assert (Hfirst : gameEnd (reducer s0 a) = false).
  { destruct (gameEnd_reducer_cases s0 a) as [E | (_ & _ & E)];
      [exact E|].
    rewrite E. change (gameEnd (tick s0)) with (didGameEnd s0).
    destruct (didGameEnd s0) eqn:Hd; [|reflexivity].
    apply didGameEnd_true in Hd as [He Ht]. unfold JS.geb, JS.gtb in He, Ht.
    apply leb_inv in He as (z & e & Ez & Ee & He).
    apply ltb_inv in Ht as (e' & t & Ee' & Et & Ht).
    rewrite Ee in Ee'. injection Ee' as <-. injection Et as <-.
    injection Ez as <-. lra. }
  apply overlays_run; unfold overlays; rewrite Hfirst; simpl.
  - reflexivity.
  - now rewrite andb_true_r.
  - discriminate.
Qed.

End Overlays.

(** ** The last note and the two parts of a score *)

Section LastNoteFacts.

Local Open Scope js_scope.

Lemma nltb_ltb_trans (x y z : number) :
  (y <? x) = false -> (y <? z) = true -> is_num x -> (x <? z) = true.
Proof.
  intros Hyx (q & u & -> & -> & Hqu)%ltb_inv [p ->]%is_num_inv.
  apply Qltb_nlt in Hyx. apply ltb_Num. lra.
Qed.

(** [reduce] with the comparison of [findLast]: the accumulator when no
    element ends after it, and otherwise the first of the elements with
    the greatest end. *)
Lemma fold_later_spec (l : list NoteData) : forall acc,
  Forall (fun x => is_num (end_ x)) l ->
  (fold_left later l acc = acc
   /\ forall x, In x l -> (end_ acc <? end_ x) = false)
  \/ (exists l1 l2,
        l = l1 ++ fold_left later l acc :: l2
        /\ (end_ acc <? end_ (fold_left later l acc)) = true
        /\ (forall x, In x l1 ->
              (end_ x <? end_ (fold_left later l acc)) = true)
        /\ (forall x, In x l2 ->
              (end_ (fold_left later l acc) <? end_ x) = false)).
Proof.
  induction l as [|x l IH]; intros acc Hnum.
  - left. simpl. tauto.
  - apply Forall_cons_iff in Hnum as [Hx Hnum]. simpl fold_left.
    unfold later at 2 4 6 8 10. unfold JS.gtb.
    destruct (end_ acc <? end_ x) eqn:Hlt.
    + right. destruct (IH x Hnum) as [[E Hall] | (l1 & l2 & E & Hm & H1 & H2)].
      * exists [], l. rewrite E. simpl. repeat split; auto; tauto.
      * exists (x :: l1), l2. simpl. rewrite <- E. repeat split; auto.
        -- eapply ltb_trans; eassumption.
        -- intros y [<- | Hy]; auto.
    + destruct (IH acc Hnum) as [[E Hall] | (l1 & l2 & E & Hm & H1 & H2)].
      * left. split; [exact E|]. intros y [<- | Hy]; auto.
      * right. exists (x :: l1), l2. simpl. rewrite <- E. repeat split; auto.
        intros y [<- | Hy]; auto. eapply nltb_ltb_trans; eassumption.
Qed.

(** X12.  On notes whose ends are all numbers, [findLast] returns a note
    of the list that ends no earlier than any other, and of the notes
    with that end the first: every note before it ends strictly
    earlier. *)
Theorem findLast_latest_end (notes : list NoteData) (n : NoteData) :
  Forall (fun x => is_num (end_ x)) notes ->
  findLast notes = Some n ->
  exists l1 l2,
    notes = l1 ++ n :: l2
    /\ (forall x, In x l1 -> (end_ x <? end_ n) = true)
    /\ (forall x, In x l2 -> (end_ x <=? end_ n) = true).
Proof.
  intros Hnum. unfold findLast. destruct notes as [|n0 l]; [discriminate|].
  intros E. injection E as <-.
  apply Forall_cons_iff in Hnum as [H0 Hnum]. simpl fold_left.
  assert (E0 : later n0 n0 = n0).
  { unfold later. now destruct (_ >? _). }
  rewrite E0.
  destruct (fold_later_spec l n0 Hnum)
    as [[E Hall] | (l1 & l2 & E & Hm & H1 & H2)].
  - exists [], l. rewrite E. simpl. repeat split; try tauto.
    intros x Hx. rewrite Forall_forall in Hnum. apply nltb_leb; auto.
  - exists (n0 :: l1), l2. simpl. rewrite <- E. repeat split.
    + intros x [<- | Hx]; auto.
    + intros x Hx. apply nltb_leb; auto.
      * apply ltb_is_num in Hm. tauto.
      * rewrite Forall_forall in Hnum. apply Hnum. rewrite E.
        apply in_or_app. right. now right.
Qed.

Lemma findLast_latest_end_witness :
  Forall (fun x => is_num (end_ x)) [demoAuto; demoNote; demoNote]
  /\ findLast [demoAuto; demoNote; demoNote] = Some demoNote
  /\ exists l1 l2,
       [demoAuto; demoNote; demoNote] = l1 ++ demoNote :: l2
       /\ (forall x, In x l1 -> (end_ x <? end_ demoNote) = true).
Proof.
  assert (Hnum : Forall (fun x => is_num (end_ x))
                        [demoAuto; demoNote; demoNote]).
  { repeat constructor. }
  assert (E : findLast [demoAuto; demoNote; demoNote] = Some demoNote).
  { vm_compute. reflexivity. }
  split; [exact Hnum|]. split; [exact E|].
  destruct (findLast_latest_end _ demoNote Hnum E) as (l1 & l2 & El & H1 & _).
  now exists l1, l2.
Defined.

Lemma later_nan (acc other : NoteData) : end_ acc = NaN -> later acc other = acc.
Proof.
  intros E. unfold later, JS.gtb. rewrite E. now destruct (end_ other).
Qed.

Lemma findLast_nan_head (n0 : NoteData) (rest : list NoteData) :
  end_ n0 = NaN -> findLast (n0 :: rest) = Some n0.
Proof.
  intros E. unfold findLast. f_equal.
  assert (Hfold : forall l, fold_left later l n0 = n0).
  { induction l as [|x l IH]; simpl; [reflexivity|].
    now rewrite (later_nan n0 x E). }
  apply Hfold.
Qed.

(** X13.  When the end of the first row of a score is not a number, the
    note of that row is the last note whatever the other rows hold, and
    the game started from the score never ends. *)
Theorem bad_first_end_never_ends (Number : option string -> number)
    (csv : string) (args : GameArgs) (n0 : NoteData) (rest : list NoteData)
    (acts : list Action) :
  startGame Number csv = inr args ->
  Notes args = n0 :: rest -> end_ n0 = NaN ->
  LastNote args = Some n0
  /\ gameEnd (run (initialState (Notes args) (UserNotes args)
                                (AutoNotes args) n0) acts) = false.
Proof.
  unfold startGame. destruct (parseNotes Number csv) as [e|notes]; simpl;
    [discriminate|].
  intros E. injection E as <-. simpl. intros -> Hnan. split.
  - now apply findLast_nan_head.
  - apply (gameEnd_stays_false n0 acts); [now rewrite Hnan | reflexivity..].
Qed.

Lemma bad_first_end_never_ends_witness :
  exists args n0 rest,
    startGame decimalNumber badScore = inr args
    /\ Notes args = n0 :: rest /\ end_ n0 = NaN
    /\ LastNote args = Some n0.
Proof.
  destruct (startGame decimalNumber badScore) as [e|args] eqn:E;
    [vm_compute in E; discriminate E|].
  destruct (Notes args) as [|n0 rest] eqn:En.
  { vm_compute in E. injection E as <-. discriminate En. }
  assert (Hnan : end_ n0 = NaN).
  { vm_compute in E. injection E as <-. injection En as <- _. reflexivity. }
  exists args, n0, rest. repeat split; auto.
  apply (bad_first_end_never_ends decimalNumber badScore args n0 rest []
           E En Hnan).
Defined.

Lemma sorted_by_filter {A : Type} (R : A -> A -> Prop) (keep : A -> bool)
    (l : list A) :
  StronglySorted R l -> StronglySorted R (filter keep l).
Proof.
  induction 1 as [|x l Hs IH Hx]; simpl; [constructor|].
  destruct (keep x); [|exact IH]. constructor; [exact IH|].
  rewrite Forall_forall in *. intros y Hy. apply Hx.
  now apply filter_In in Hy.
Qed.

Lemma sorted_by_row (l : list NoteData) : forall i,
  map oid l = seq i (List.length l) ->
  StronglySorted (fun x y => oid x < oid y) l.
Proof.
  induction l as [|x l IH]; intros i E; [constructor|].
  simpl in E. injection E as Ex El. constructor; [apply (IH (S i) El)|].
  apply Forall_forall. intros y Hy. apply (in_map oid) in Hy.
  rewrite El in Hy. apply in_seq in Hy. lia.
Qed.

(** X14.  The two lists [startGame] makes of a parsed score split it:
    every note is in exactly one of them, the user notes are the notes
    of the rows whose first column is [True] and the background notes
    the others, and each list keeps the order of the rows. *)
Theorem score_is_split (Number : option string -> number) (csv : string)
    (args : GameArgs) :
  startGame Number csv = inr args ->
  (forall n, In n (Notes args) <->
             (In n (UserNotes args) /\ user_played n = true)
             \/ (In n (AutoNotes args) /\ user_played n = false))
  /\ (List.length (UserNotes args) + List.length (AutoNotes args)
      = List.length (Notes args))%nat
  /\ StronglySorted (fun x y => oid x < oid y) (UserNotes args)
  /\ StronglySorted (fun x y => oid x < oid y) (AutoNotes args)
  /\ (forall n, In n (UserNotes args) -> ~ In n (AutoNotes args)).
Proof.
  unfold startGame.
  destruct (parseNotes_oids Number csv) as (notes & E & Hoid).
  rewrite E. simpl. intros Ea. injection Ea as <-. simpl.
  assert (Hlen : List.length (tl (split newline (trim csv)))
                 = List.length notes).
  { rewrite <- (length_map oid notes), Hoid. now rewrite length_seq. }
  rewrite Hlen in Hoid. pose proof (sorted_by_row notes 0 Hoid) as Hs.
  split; [|split; [|split; [|split]]].
  - intros n. rewrite !filter_In, negb_true_iff.
    destruct (user_played n); intuition discriminate.
  - clear. induction notes as [|x l IH]; simpl; [reflexivity|].
    destruct (user_played x); simpl; lia.
  - now apply sorted_by_filter.
  - now apply sorted_by_filter.
  - intros n [_ Hu]%filter_In [_ Ha]%filter_In. rewrite Hu in Ha.
    discriminate Ha.
Qed.

Lemma score_is_split_witness :
  exists args,
    startGame decimalNumber badScore = inr args
    /\ (List.length (UserNotes args) + List.length (AutoNotes args)
        = List.length (Notes args))%nat.
Proof.
  destruct (startGame decimalNumber badScore) as [e|args] eqn:E;
    [vm_compute in E; discriminate E|].
  exists args. split; [reflexivity|].
  apply (score_is_split decimalNumber badScore args E).
Defined.

End LastNoteFacts.

(** ** Off the grid, and after a hit *)

Section OffGrid.

Local Open Scope js_scope.





Lemma played_not_rendered_tick (s : State) :
  Forall (fun c => played c = true -> rendered c = false) (circles s) ->
  Forall (fun c => played c = true -> rendered c = false) (circles (tick s)).
Proof.
  intros Hall. rewrite Forall_forall in Hall. apply Forall_forall.
  intros c Hc. simpl in Hc. unfold tick_updatedCircles in Hc.
  apply in_app_or in Hc as [Hc | Hc].
  - apply in_map_iff in Hc as (c0 & <- & Hc0).
    apply filter_In in Hc0 as [Hc0 Hr]. intros Hp.
    assert (Hp0 : played c0 = true).
    { revert Hp. unfold moveCircle. now destruct (JS.geb _ _). }
    rewrite (Hall c0 Hc0 Hp0) in Hr. discriminate Hr.
  - unfold newCircles in Hc. apply in_map_iff in Hc as (n & <- & _).
    discriminate.
Qed.

Lemma played_not_rendered_keyPress (s : State) (a : Action) :
  Forall (fun c => played c = true -> rendered c = false) (circles s) ->
  Forall (fun c => played c = true -> rendered c = false)
         (circles (keyPress s a)).
Proof.
  intros Hall. rewrite Forall_forall in Hall. apply Forall_forall.
  intros c Hc. simpl in Hc. unfold key_updatedCircles in Hc.
  apply in_map_iff in Hc as ([i c0] & <- & Hc0).
  apply in_indexed, nth_error_In in Hc0. simpl.
  destruct (is_prioritized _ _); [reflexivity | auto].
Qed.

Lemma played_not_rendered_reducer (s : State) (a : Action) :
  Forall (fun c => played c = true -> rendered c = false) (circles s) ->
  Forall (fun c => played c = true -> rendered c = false)
         (circles (reducer s a)).
Proof.
  intros Hall. unfold reducer.
  destruct a; try exact Hall; destruct (paused s); simpl negb; cbv iota;
    try exact Hall; try (now apply played_not_rendered_tick);
    now apply played_not_rendered_keyPress.
Qed.

Lemma filter_all_false {A : Type} (p : A -> bool) (l : list A) :
  (forall x, In x l -> p x = false) -> filter p l = [].
Proof.
  induction l as [|x l IH]; intros Hall; simpl; [reflexivity|].
  rewrite (Hall x (or_introl eq_refl)). apply IH. intros y Hy. apply Hall.
  now right.
Qed.

Lemma played_not_rendered_run (acts : list Action) : forall s,
  Forall (fun c => played c = true -> rendered c = false) (circles s) ->
  Forall (fun c => played c = true -> rendered c = false)
         (circles (run s acts)).
Proof.
  induction acts as [|a acts IH]; intros s Hall; [exact Hall|].
  apply IH, played_not_rendered_reducer, Hall.
Qed.

(** X16.  In a game started by [main], a circle that was hit is never
    rendered again, and the next tick that is let through removes it:
    the state a tick produces holds no played circle, so the subscriber
    plays the note of a hit in the states between the key and the next
    tick only. *)
Theorem hit_circles_leave_with_the_tick
    (Notes UserNotes AutoNotes : list NoteData) (LastNote : NoteData)
    (acts : list Action) :
  (forall c,
      In c (circles (run (initialState Notes UserNotes AutoNotes LastNote)
                         acts)) ->
      played c = true -> rendered c = false)
  /\ (forall c,
        In c (circles (tick (run (initialState Notes UserNotes AutoNotes
                                               LastNote) acts))) ->
        played c = false)
  /\ circleSounds (tick (run (initialState Notes UserNotes AutoNotes
                                           LastNote) acts)) = [].
Proof.
  set (s := run (initialState Notes UserNotes AutoNotes LastNote) acts).
  assert (Hinv : Forall (fun c => played c = true -> rendered c = false)
                        (circles s)).
  { apply played_not_rendered_run. constructor. }
  assert (Htick : forall c, In c (circles (tick s)) -> played c = false).
  { intros c Hc. simpl in Hc. unfold tick_updatedCircles in Hc.
    rewrite Forall_forall in Hinv. apply in_app_or in Hc as [Hc | Hc].
    - apply in_map_iff in Hc as (c0 & <- & Hc0).
      apply filter_In in Hc0 as [Hc0 Hr].
      assert (Hp0 : played c0 = false).
      { destruct (played c0) eqn:Hp; [|reflexivity].
        rewrite (Hinv c0 Hc0 Hp) in Hr. discriminate Hr. }
      unfold moveCircle. now destruct (JS.geb _ _).
    - unfold newCircles in Hc. apply in_map_iff in Hc as (n & <- & _).
      reflexivity. }
  split; [|split; [exact Htick|]].
  - rewrite Forall_forall in Hinv. exact Hinv.
  - unfold circleSounds.
    rewrite (filter_all_false (fun c => negb (rendered c) && played c)
               (circles (tick s))); [reflexivity|].
    intros c Hc. rewrite (Htick c Hc). apply andb_false_r.
Qed.

End OffGrid.
